(** * rustlisp: a shallow embedding of the evaluation engine

    This development models the interpreter core of rustlisp
    ([src/interpreter/{mod,environment,value}.rs] and
    [src/intrinsics/{mod,macros,functions}.rs]) and checks its
    specification against it.

    Conventions of the model:
    - an [f64] is a primitive [float]; Rust's [as] casts from [f64] are
      written out (saturating, truncating toward zero, NaN to 0);
    - strings are byte strings; slicing a [&str] at a byte offset that is
      not a UTF-8 character boundary panics in Rust, and so it does here;
    - [Environment::stack] is a [Vec] whose last element is the innermost
      scope; the model stores it innermost-first (the head of the list is
      the [Vec]'s last element);
    - a panic ([unwrap], [expect], an index out of bounds, a bad slice) is
      the outcome [Panic]; the [exit] built-in is the outcome [Halt];
      evaluation is bounded by fuel, and running out of it is [OutOfFuel]
      (Rust has no such outcome: it only bounds the model's recursion). *)

From Stdlib Require Import Floats ZArith Lia Ascii.
From stdpp Require Import base gmap strings list.

Set Warnings "-register-all".
Open Scope string_scope.

(* ------------------------------------------------------------------ *)
(** ** Symbolic expressions ([src/parser/sexpr.rs]) *)

Inductive sexpr : Type :=
| SStr (s : string)
| SNum (n : float)
| SBool (b : bool)
| SIdent (s : string) (variadic : bool)
| SList (vals : list sexpr)
| SQuote (e : sexpr)
| SNil.

(* ------------------------------------------------------------------ *)
(** ** Runtime values ([src/interpreter/value.rs])

    [Intrinsic] and [Macro] hold Rust function pointers; the model names
    each native function of the source by a constructor.  The three
    handlers that [define-struct] installs are three non-capturing Rust
    closures, hence three function pointers, shared by every struct. *)

Inductive intrinsic : Type :=
| I_add | I_sub | I_mul | I_div | I_modulo | I_sqrt | I_pow | I_log | I_ln
| I_fib_rust
| I_is_num | I_is_bool | I_is_str | I_is_symbol | I_is_cons | I_is_lambda
| I_list | I_cons | I_car | I_cdr | I_len | I_nth | I_append
| I_is_l | I_is_le | I_is_g | I_is_ge | I_is_eq
| I_or | I_and | I_not
| I_exit | I_begin | I_print | I_println | I_apply | I_concat | I_eval
| I_format | I_read_line | I_parse | I_import | I_read_file | I_write_file
| I_sin | I_cos | I_tan | I_csc | I_sec | I_cot | I_asin | I_acos | I_atan
| I_atan2.

Inductive macro : Type :=
| M_define | M_lambda | M_if | M_cond | M_let | M_define_struct
| M_struct_pred    (** the [{struct}?] closure of [_define_struct] *)
| M_struct_access  (** the [{struct}-{field}] closure *)
| M_struct_make.   (** the [make-{struct}] closure *)

Inductive value : Type :=
| Num (n : float)
| Bool (b : bool)
| Str (s : string)
| Symbol (s : string) (variadic : bool)
| List (vals : list value)
| Func (params : list string) (body : sexpr) (variadic : bool)
| Intrinsic (f : intrinsic)
| Macro (f : macro)
| Struct (name : string) (fields : list value).

(** [interpreter::empty] / [intrinsics::nil] *)
Definition empty : value := List [].

(* ------------------------------------------------------------------ *)
(** ** Errors ([src/errors.rs], [src/err.rs])

    An [RLError] is a formatted description.  The model keeps the
    arguments of the formatting instead of the formatted text: each
    constructor of [errors.rs] is a constructor here, and an ad-hoc
    [format!(template, args..)] is [Message template args]. *)

Inductive rl_error : Type :=
| ArityAtLeast (expected found : nat)
| ArityAtMost (expected found : nat)
| ArityExact (expected found : nat)
| Unbound (ident : string)
| NotAFunction (v : value)
| NotANumber (v : value)
| NotAnIdentifier (e : sexpr)
| NotAList (e : sexpr)
| NotABool (e : sexpr)
| ReservedWord (s : string)
| Message (template : string) (args : list value)
| MessageStr (template : string) (arg : string)
| HostError (description : string).

Inductive result : Type :=
| Ok (v : value)
| Err (e : rl_error).

(* ------------------------------------------------------------------ *)
(** ** Conversions between expressions and values *)

(** [impl From<SExpr> for Value] *)
Fixpoint value_of_sexpr (e : sexpr) : value :=
  match e with
  | SNum n => Num n
  | SBool b => Bool b
  | SStr s => Str s
  | SIdent s v => Symbol s v
  | SList vals => List (map value_of_sexpr vals)
  | SNil => List []
  | SQuote e' => value_of_sexpr e'
  end.

(** [impl Into<SExpr> for Value]; [None] is the
    [panic!("Evaluating other values is not yet supported.")] arm. *)
Fixpoint sexpr_of_value (v : value) : option sexpr :=
  let fix conv_all (vs : list value) : option (list sexpr) :=
    match vs with
    | [] => Some []
    | v' :: vs' =>
        match sexpr_of_value v' with
        | Some e => match conv_all vs' with
                    | Some es => Some (e :: es)
                    | None => None
                    end
        | None => None
        end
    end in
  match v with
  | Num n => Some (SNum n)
  | Bool b => Some (SBool b)
  | Str s => Some (SStr s)
  | Symbol s b => Some (SIdent s b)
  | List vals =>
      match conv_all vals with
      | Some es => Some (SList es)
      | None => None
      end
  | Struct name fields =>
      match conv_all fields with
      | Some es => Some (SList (SIdent ("make-" ++ name) false :: es))
      | None => None
      end
  | _ => None
  end.

(* ------------------------------------------------------------------ *)
(** ** Value equality ([impl PartialEq for Value]) *)

Fixpoint value_eq (a b : value) : bool :=
  let fix all_eq (xs ys : list value) : bool :=
    match xs, ys with
    | x :: xs', y :: ys' => value_eq x y && all_eq xs' ys'
    | _, _ => true
    end in
  match a, b with
  | Num x, Num y => PrimFloat.eqb x y
  | Bool x, Bool y => Bool.eqb x y
  | Str x, Str y => String.eqb x y
  | Symbol x xv, Symbol y yv => String.eqb x y && Bool.eqb xv yv
  | List xs, List ys =>
      if Nat.eqb (length xs) (length ys) then all_eq xs ys else false
  | Struct xt xs, Struct yt ys =>
      if String.eqb xt yt && Nat.eqb (length xs) (length ys)
      then all_eq xs ys else false
  | _, _ => false
  end.

(* ------------------------------------------------------------------ *)
(** ** The environment ([src/interpreter/environment.rs])

    A [Scope] also records the expression that entered it ([caller]);
    no operation of the engine reads it, and the callers in
    [interpreter/mod.rs] and [intrinsics/] enter scopes without one, so
    a scope is its [mapping] here. *)

Record environment : Type := mkEnv {
  base : gmap string value;
  stack : list (gmap string value);   (** innermost first *)
  structs : gmap string (list string)
}.

(** [Environment::enter_scope] *)
Definition enter_scope (env : environment) : environment :=
  mkEnv (base env) (∅ :: stack env) (structs env).

(** [Environment::exit_scope]; [None] is the panic of
    [expect("Attempted to exit nonexistent scope.")]. *)
Definition exit_scope (env : environment) : option environment :=
  match stack env with
  | [] => None
  | _ :: rest => Some (mkEnv (base env) rest (structs env))
  end.

(** [Environment::define]: insert into the current (innermost) scope;
    [None] is the out-of-bounds panic of [cur_scope_mut] on an empty
    stack. *)
Definition define (key : string) (v : value) (env : environment)
  : option environment :=
  match stack env with
  | [] => None
  | s :: rest => Some (mkEnv (base env) (<[key := v]> s :: rest) (structs env))
  end.

(** The loop [for scope in scopes { if let Some(v) = scope.get(key) ... }]
    over scopes listed innermost first. *)
Fixpoint lookup_scopes (key : string) (scopes : list (gmap string value))
  : option value :=
  match scopes with
  | [] => None
  | s :: rest =>
      match s !! key with
      | Some v => Some v
      | None => lookup_scopes key rest
      end
  end.

(** [Environment::get]: [self.stack.iter().rev()] *)
Definition get (env : environment) (key : string) : option value :=
  lookup_scopes key (stack env).

(** [Environment::get_super]: [self.stack[..len - 1].iter().rev()] when
    [len > 1], else [self.base.mapping.get(key)]. *)
Definition get_super (env : environment) (key : string) : option value :=
  if Nat.ltb 1 (length (stack env))
  then lookup_scopes key (tail (stack env))
  else base env !! key.

(** [Environment::add_struct] and [Environment::get_struct] *)
Definition add_struct (name : string) (fields : list string)
    (env : environment) : environment :=
  mkEnv (base env) (stack env) (<[name := fields]> (structs env)).

Definition get_struct (env : environment) (name : string)
  : option (list string) :=
  structs env !! name.

(** [impl FieldIndex for StructFields] *)
Fixpoint field_index (fields : list string) (key : string) : option nat :=
  match fields with
  | [] => None
  | k :: rest =>
      if String.eqb k key then Some 0
      else match field_index rest key with
           | Some i => Some (S i)
           | None => None
           end
  end.

(** [impl Default for Environment]: empty base, one empty scope. *)
Definition default_env : environment :=
  enter_scope (mkEnv ∅ [] ∅).

(** Number of scopes on the stack ([self.stack.len()]). *)
Definition depth (env : environment) : nat := length (stack env).

(* ------------------------------------------------------------------ *)
(** ** Outcomes of evaluation *)

Inductive outcome : Type :=
| Ret (env : environment) (r : result)  (** the call returns [r] *)
| Halt (code : Z)                        (** [std::process::exit(code)] *)
| Panic                                  (** the process panics *)
| OutOfFuel.                             (** the model's recursion bound *)

(** The [?] operator on a [Result<Value>]. *)
Definition bind_val (o : outcome) (k : environment -> value -> outcome)
  : outcome :=
  match o with
  | Ret env (Ok v) => k env v
  | Ret env (Err e) => Ret env (Err e)
  | Halt c => Halt c
  | Panic => Panic
  | OutOfFuel => OutOfFuel
  end.

Notation "'let?' ( env , x ) := o 'in' k" :=
  (bind_val o (fun env x => k))
  (at level 200, env name, x name, o at level 100, right associativity).

(** A step that panics when it yields [None]. *)
Definition or_panic (o : option environment) (k : environment -> outcome)
  : outcome :=
  match o with
  | Some env => k env
  | None => Panic
  end.

(** An evaluator for sub-expressions (the recursive [SExpr::eval]). *)
Definition evaluator : Type := sexpr -> environment -> outcome.

(* ------------------------------------------------------------------ *)
(** ** The application protocol ([interpreter::eval_func]) *)

(** [for i in 0..n { env.define(params[i].clone(), args[i].clone()); }];
    [None] is an index-out-of-bounds panic. *)
Definition bind_step (params : list string) (args : list value)
    (acc : option environment) (i : nat) : option environment :=
  acc ≫= fun env => p ← params !! i; a ← args !! i; define p a env.

Definition bind_params (params : list string) (args : list value) (n : nat)
    (env : environment) : option environment :=
  foldl (bind_step params args) (Some env) (seq 0 n).

Definition eval_func (ev : evaluator) (func : value) (args : list value)
    (env : environment) : outcome :=
  match func with
  | Func params body variadic =>
      let env := enter_scope env in
      let params_len := length params in
      let args_len := length args in
      let finish env :=
        let? (env, res) := ev body env in
        or_panic (exit_scope env) (fun env => Ret env (Ok res)) in
      if variadic then
        (* [params_len - 1] on [usize] panics when [params_len = 0] *)
        if Nat.eqb params_len 0 then Panic
        else if Nat.ltb args_len (params_len - 1)
        then Ret env (Err (ArityAtLeast (params_len - 1) args_len))
        else
          or_panic (bind_params params args (params_len - 1) env) (fun env =>
          let variadic_arg :=
            if Nat.leb params_len args_len
            then drop (params_len - 1) args else [] in
          match params !! (params_len - 1) with
          | None => Panic
          | Some rest_name =>
              or_panic (define rest_name (List variadic_arg) env) finish
          end)
      else if negb (Nat.eqb params_len args_len)
      then Ret env (Err (ArityExact params_len args_len))
      else or_panic (bind_params params args params_len env) finish
  | _ => Ret env (Err (NotAFunction func))
  end.

(* ------------------------------------------------------------------ *)
(** ** Numeric casts and string slicing *)

(** [f as T] for an integer type [T] with range [lo..=hi]: truncation
    toward zero, saturating at the bounds, NaN to 0. *)
Definition f64_as_int (lo hi : Z) (f : float) : Z :=
  match Prim2SF f with
  | S754_zero _ | S754_nan => 0
  | S754_infinity s => if s then lo else hi
  | S754_finite s m e =>
      let t := if Z.leb 0 e then Z.shiftl (Zpos m) e
               else Z.shiftr (Zpos m) (- e) in
      Z.max lo (Z.min hi (if s then - t else t))
  end.

Definition usize_max : Z := 2 ^ 64 - 1.
Definition u64_max : Z := 2 ^ 64 - 1.

(** [n as usize] and [n as i32] *)
Definition f64_as_usize (f : float) : Z := f64_as_int 0 usize_max f.
Definition f64_as_i32 (f : float) : Z := f64_as_int (- 2 ^ 31) (2 ^ 31 - 1) f.

(** [n as f64] for an integer [n]: round to nearest. *)
Definition Z_as_f64 (z : Z) : float :=
  SF2Prim (SpecFloat.binary_normalize prec emax z 0 false).

(** [str::is_char_boundary] on the UTF-8 bytes of [s]. *)
Definition is_char_boundary (s : string) (i : nat) : bool :=
  Nat.eqb i 0 ||
  match String.get i s with
  | None => Nat.eqb i (String.length s)
  | Some c => negb (N.eqb (N.land (Ascii.N_of_ascii c) 192) 128)
  end.

(** [&s[i..]] and [&s[..i]]; [None] is the slicing panic. *)
Definition slice_from (s : string) (i : nat) : option string :=
  if is_char_boundary s i
  then Some (String.substring i (String.length s - i) s) else None.

Definition slice_to (s : string) (i : nat) : option string :=
  if is_char_boundary s i then Some (String.substring 0 i s) else None.

(** ['-'] *)
Definition hyphen : Ascii.ascii := Ascii.ascii_of_nat 45.

(** [s.rfind('-')]: byte offset of the last hyphen. *)
Fixpoint rfind_hyphen_from (s : string) (pos : nat) : option nat :=
  match s with
  | EmptyString => None
  | String c rest =>
      match rfind_hyphen_from rest (S pos) with
      | Some i => Some i
      | None => if Ascii.eqb c hyphen then Some pos else None
      end
  end.

Definition rfind_hyphen (s : string) : option nat := rfind_hyphen_from s 0.

(* ------------------------------------------------------------------ *)
(** ** What the engine takes from its host

    The engine calls the platform's [f64] library ([sin], [powf], [%],
    ...), and a group of built-ins works through the reader, [Display]
    and the file system ([print], [println], [concat], [format],
    [read-line], [parse], [import], [read-file], [write-file]); these are
    outside the evaluation engine and the model takes them from a host.
    [CARGO_PKG_NAME] and [CARGO_PKG_VERSION] are fixed by the build. *)

Record host : Type := mkHost {
  host_math1 : intrinsic -> float -> float;
  host_math2 : intrinsic -> float -> float -> float;
  host_call : intrinsic -> environment -> list value -> outcome;
  host_pkg_name : string;
  host_pkg_version : string
}.

(* ------------------------------------------------------------------ *)
(** ** Intrinsics ([src/intrinsics/functions.rs]) *)

(** [check_arity] *)
Definition check_arity (expected found : nat) : option rl_error :=
  if negb (Nat.eqb found expected) then Some (ArityExact expected found)
  else None.

(** [check_arity(n, args.len())?; body] *)
Definition with_arity (env : environment) (expected : nat) (args : list value)
    (k : outcome) : outcome :=
  match check_arity expected (length args) with
  | Some e => Ret env (Err e)
  | None => k
  end.

(** [unary_fn] and [binary_fn] *)
Definition unary_fn (env : environment) (args : list value)
    (f : float -> float) : outcome :=
  with_arity env 1 args
    match args with
    | [Num x] => Ret env (Ok (Num (f x)))
    | [arg] => Ret env (Err (NotANumber arg))
    | _ => Panic
    end.

Definition binary_fn (env : environment) (args : list value)
    (f : float -> float -> float) : outcome :=
  with_arity env 2 args
    match args with
    | [Num u; Num v] => Ret env (Ok (Num (f u v)))
    | [u; v] => Ret env (Err (Message "Expected (num num), found ({} {})." [u; v]))
    | _ => Panic
    end.

(** The loops of [_add] and [_mul]: fold, failing on the first
    non-number. *)
Fixpoint fold_nums (op : float -> float -> float) (acc : float)
    (args : list value) : result :=
  match args with
  | [] => Ok (Num acc)
  | Num n :: rest => fold_nums op (op acc n) rest
  | arg :: _ => Err (NotANumber arg)
  end.

(** [_sub] and [_div]: [first] alone is mapped by [single]; otherwise
    the rest is folded into it. *)
Definition sub_like (env : environment) (args : list value)
    (single : float -> float) (op : float -> float -> float) : outcome :=
  match args with
  | [] => Ret env (Err (ArityAtLeast 2 0))
  | Num n :: [] => Ret env (Ok (Num (single n)))
  | Num n :: rest => Ret env (fold_nums op n rest)
  | first :: _ => Ret env (Err (NotANumber first))
  end.

(** A type-check intrinsic ([_is_num], [_is_bool], ...). *)
Definition type_check (env : environment) (args : list value)
    (p : value -> bool) : outcome :=
  with_arity env 1 args
    match args with
    | [arg] => Ret env (Ok (Bool (p arg)))
    | _ => Panic
    end.

Definition is_num (v : value) : bool :=
  match v with Num _ => true | _ => false end.
Definition is_bool (v : value) : bool :=
  match v with Bool _ => true | _ => false end.
Definition is_str (v : value) : bool :=
  match v with Str _ => true | _ => false end.
Definition is_symbol (v : value) : bool :=
  match v with Symbol _ _ => true | _ => false end.
Definition is_cons (v : value) : bool :=
  match v with List _ => true | _ => false end.
Definition is_lambda (v : value) : bool :=
  match v with Intrinsic _ | Func _ _ _ => true | _ => false end.

(** [cmp] and the four comparison intrinsics *)
Definition compare_with (env : environment) (args : list value)
    (test : float -> bool) : outcome :=
  with_arity env 2 args
    match args with
    | [Num a; Num b] => Ret env (Ok (Bool (test (a - b)%float)))
    | [a; b] => Ret env (Err (Message "Cannot compare {} to {}." [a; b]))
    | _ => Panic
    end.

(** The loops of [_or] and [_and]: [stop_on] short-circuits. *)
Fixpoint logic_fold (stop_on : bool) (args : list value) : result :=
  match args with
  | [] => Ok (Bool (negb stop_on))
  | Bool b :: rest => if Bool.eqb b stop_on then Ok (Bool stop_on)
                      else logic_fold stop_on rest
  | arg :: _ => Err (Message "{} is not a bool." [arg])
  end.

(** [fib] on [u64], with the overflow check of a debug build: the sums
    are the Fibonacci numbers up to [fib n], so the computation panics
    exactly when [fib n] exceeds [u64::MAX]. *)
Fixpoint fib_pair (n : nat) : Z * Z :=
  match n with
  | O => (0, 1)
  | S k => let '(a, b) := fib_pair k in (b, a + b)
  end%Z.

Definition fib_u64 (n : Z) : option Z :=
  let r := fst (fib_pair (Z.to_nat n)) in
  if Z.leb r u64_max then Some r else None.

Definition is_transcendental1 (f : intrinsic) : bool :=
  match f with
  | I_sin | I_cos | I_tan | I_asin | I_acos | I_atan | I_ln => true
  | _ => false
  end.

Definition delegated_to_host (f : intrinsic) : bool :=
  match f with
  | I_print | I_println | I_concat | I_format | I_read_line | I_parse
  | I_import | I_read_file | I_write_file => true
  | _ => false
  end.

(** Calling an intrinsic ([func(env, &args)]).  [ev] evaluates an
    expression and [call] calls an intrinsic, one level deeper ([apply]
    and [eval] re-enter the engine). *)
Definition call_intrinsic (H : host) (ev : evaluator)
    (call : intrinsic -> environment -> list value -> outcome)
    (f : intrinsic) (env : environment) (args : list value) : outcome :=
  match f with
  | I_exit =>
      match args with
      | [] => Halt 0
      | [Num n] => Halt (f64_as_i32 n)
      | [code] => Ret env (Err (NotANumber code))
      | _ => Ret env (Err (ArityAtMost 1 (length args)))
      end
  | I_begin =>
      match last args with
      | None => Ret env (Ok empty)
      | Some v => Ret env (Ok v)
      end
  | I_add => Ret env (fold_nums PrimFloat.add 0%float args)
  | I_sub => sub_like env args PrimFloat.opp PrimFloat.sub
  | I_mul => Ret env (fold_nums PrimFloat.mul 1%float args)
  | I_div => sub_like env args (fun n => (1 / n)%float) PrimFloat.div
  | I_modulo | I_pow | I_log | I_atan2 => binary_fn env args (host_math2 H f)
  | I_sqrt => unary_fn env args PrimFloat.sqrt
  | I_sin | I_cos | I_tan | I_asin | I_acos | I_atan | I_ln =>
      unary_fn env args (host_math1 H f)
  | I_csc => unary_fn env args (fun x => (1 / host_math1 H I_cos x)%float)
  | I_sec => unary_fn env args (fun x => (1 / host_math1 H I_cos x)%float)
  | I_cot => unary_fn env args (fun x => (1 / host_math1 H I_tan x)%float)
  | I_is_num => type_check env args is_num
  | I_is_bool => type_check env args is_bool
  | I_is_str => type_check env args is_str
  | I_is_symbol => type_check env args is_symbol
  | I_is_cons => type_check env args is_cons
  | I_is_lambda => type_check env args is_lambda
  | I_list => Ret env (Ok (List args))
  | I_cons =>
      with_arity env 2 args
        match args with
        | [car; List vals] => Ret env (Ok (List (car :: vals)))
        | [car; _] => Ret env (Err (Message "{} is not a list." [car]))
        | _ => Panic
        end
  | I_car =>
      with_arity env 1 args
        match args with
        | [List []] => Ret env (Err (Message "Cannot call car on an empty list." []))
        | [List (v :: _)] => Ret env (Ok v)
        | [l] => Ret env (Err (Message "{} is not a list." [l]))
        | _ => Panic
        end
  | I_cdr =>
      with_arity env 1 args
        match args with
        | [List []] => Ret env (Err (Message "Cannot call cdr on an empty list." []))
        | [List (_ :: rest)] => Ret env (Ok (List rest))
        | [l] => Ret env (Err (Message "{} is not a list." [l]))
        | _ => Panic
        end
  | I_len =>
      with_arity env 1 args
        match args with
        | [List vals] => Ret env (Ok (Num (Z_as_f64 (Z.of_nat (length vals)))))
        | [l] => Ret env (Err (Message "{} is not a list." [l]))
        | _ => Panic
        end
  | I_nth =>
      with_arity env 2 args
        match args with
        | [List vals; Num num] =>
            match vals with
            | [] => Ret env (Ok empty)
            | _ =>
                let index := f64_as_usize num in
                if negb (PrimFloat.eqb (Z_as_f64 index) num)
                then Ret env (Err (Message "List index must be an integer." []))
                else match vals !! Z.to_nat index with
                     | Some v => Ret env (Ok v)
                     | None => Panic   (* [vals[index]] out of bounds *)
                     end
            end
        | [_; _] => Ret env (Err (Message "Does not match contract." []))
        | _ => Panic
        end
  | I_append =>
      with_arity env 2 args
        match args with
        | [v; List l] => Ret env (Ok (List (l ++ [v])))
        | [_; l] => Ret env (Err (Message "{} is not a list." [l]))
        | _ => Panic
        end
  | I_is_l => compare_with env args (fun d => (d <? 0)%float)
  | I_is_le => compare_with env args (fun d => (d <=? 0)%float)
  | I_is_g => compare_with env args (fun d => (0 <? d)%float)
  | I_is_ge => compare_with env args (fun d => (0 <=? d)%float)
  | I_is_eq =>
      with_arity env 2 args
        match args with
        | [a; b] => Ret env (Ok (Bool (value_eq a b)))
        | _ => Panic
        end
  | I_or => Ret env (logic_fold true args)
  | I_and => Ret env (logic_fold false args)
  | I_not =>
      with_arity env 1 args
        match args with
        | [Bool b] => Ret env (Ok (Bool (negb b)))
        | [a] => Ret env (Err (Message "{} is not a bool." [a]))
        | _ => Panic
        end
  | I_apply =>
      with_arity env 2 args
        match args with
        | [Func ps b v as func; List l] => eval_func ev func l env
        | [Intrinsic g; List l] => call g env l
        | [func; a] => Ret env (Err (Message "Contract not satisfied: {} {}." [func; a]))
        | _ => Panic
        end
  | I_eval =>
      with_arity env 1 args
        match args with
        | [arg] =>
            match sexpr_of_value arg with
            | Some expr => ev expr env
            | None => Panic   (* [panic!] in [Into<SExpr> for Value] *)
            end
        | _ => Panic
        end
  | I_fib_rust =>
      with_arity env 1 args
        match args with
        | [Num n] =>
            match fib_u64 (f64_as_usize n) with
            | Some r => Ret env (Ok (Num (Z_as_f64 r)))
            | None => Panic
            end
        | [n] => Ret env (Err (NotANumber n))
        | _ => Panic
        end
  | I_print | I_println | I_concat | I_format | I_read_line | I_parse
  | I_import | I_read_file | I_write_file => host_call H f env args
  end.

(* ------------------------------------------------------------------ *)
(** ** Special forms ([src/intrinsics/macros.rs]) *)

(** [intrinsics::RESERVED_WORDS] *)
Definition RESERVED_WORDS : list string :=
  ["define"; "define-struct"; "begin"; "cond"; "else"; "if"; "let"].

(** Left-to-right evaluation of a sequence of expressions, stopping at
    the first failure ([for e in es { vals.push(e.eval(env)?); }]). *)
Fixpoint eval_all (ev : evaluator) (es : list sexpr) (env : environment)
    (k : environment -> list value -> outcome) : outcome :=
  match es with
  | [] => k env []
  | e :: rest =>
      let? (env, v) := ev e env in
      eval_all ev rest env (fun env vs => k env (v :: vs))
  end.

(** The parameter loop of [_lambda]. *)
Fixpoint lambda_params (len i : nat) (params : list sexpr)
  : rl_error + list string :=
  match params with
  | [] => inr []
  | SIdent s variadic :: rest =>
      if variadic && negb (Nat.eqb i (len - 1))
      then inl (Message "Only the final parameter of a function may be variadic." [])
      else match lambda_params len (S i) rest with
           | inl e => inl e
           | inr names => inr (s :: names)
           end
  | param :: _ => inl (NotAnIdentifier param)
  end.

(** The field loop of [_define_struct]. *)
Fixpoint struct_fields (vals : list sexpr) : rl_error + list string :=
  match vals with
  | [] => inr []
  | SIdent ident _ :: rest =>
      match struct_fields rest with
      | inl e => inl e
      | inr fs => inr (ident :: fs)
      end
  | v :: _ => inl (NotAnIdentifier v)
  end.

(** The clause loop of [_cond], run inside the scope it entered. *)
Fixpoint cond_clauses (ev : evaluator) (conditions : list sexpr)
    (env : environment) : outcome :=
  match conditions with
  | [] => or_panic (exit_scope env) (fun env => Ret env (Ok empty))
  | condition :: rest =>
      match condition with
      | SList [test; then_] =>
          let? (env, c) := ev test env in
          match c with
          | Bool true => or_panic (exit_scope env) (fun env => ev then_ env)
          | Bool false => cond_clauses ev rest env
          | _ => or_panic (exit_scope env) (fun env =>
                   Ret env (Err (Message "{} is not a bool." [c])))
          end
      | SList vals =>
          or_panic (exit_scope env) (fun env =>
            Ret env (Err (ArityExact 2 (length vals))))
      | _ =>
          or_panic (exit_scope env) (fun env =>
            Ret env (Err (NotAList condition)))
      end
  end.

(** The binding loop of [_let] followed by its body. *)
Fixpoint let_bindings (ev : evaluator) (bindings : list sexpr) (body : sexpr)
    (env : environment) : outcome :=
  match bindings with
  | [] =>
      match ev body env with
      | Ret env r => or_panic (exit_scope env) (fun env => Ret env r)
      | o => o
      end
  | expr :: rest =>
      match expr with
      | SList binding =>
          match binding with
          | [SIdent s _; e] =>
              let? (env, res) := ev e env in
              or_panic (define s res env) (let_bindings ev rest body)
          | [name; _] =>
              or_panic (exit_scope env) (fun env =>
                Ret env (Err (NotAnIdentifier name)))
          | _ => Ret env (Err (ArityExact 2 (length binding)))
          end
      | _ =>
          or_panic (exit_scope env) (fun env => Ret env (Err (NotAList expr)))
      end
  end.

(** [env.define_macro(..)] for each installed handler, in order. *)
Definition define_all (defs : list (string * value)) (env : environment)
  : option environment :=
  foldl (fun acc '(k, v) => acc ≫= define k v) (Some env) defs.

(** The handlers [_define_struct] installs for [name] and [fields]. *)
Definition struct_handlers (name : string) (fields : list string)
  : list (string * value) :=
  [(name ++ "?", Macro M_struct_pred)] ++
  map (fun field => (name ++ "-" ++ field, Macro M_struct_access)) fields ++
  [("make-" ++ name, Macro M_struct_make)].

(** Calling a special-form handler ([func(env, vals)]); [exprs] holds
    the head of the form too.  The engine only calls a handler on a
    non-empty list, so the [len - 1] of the source never underflows. *)
Definition call_macro (ev : evaluator) (m : macro) (env : environment)
    (exprs : list sexpr) : outcome :=
  let len := length exprs in
  match m with
  | M_define =>
      match exprs with
      | _ :: ident :: val :: rest =>
          match ident with
          | SIdent s _ =>
              match rest with
              | [] =>
                  if bool_decide (s ∈ RESERVED_WORDS)
                  then Ret env (Err (ReservedWord s))
                  else let? (env, v) := ev val env in
                       or_panic (define s v env) (fun env => Ret env (Ok empty))
              | _ => Ret env (Err (ArityExact 2 (len - 1)))
              end
          | SList vals =>
              match vals with
              | [] => Ret env (Err (Message "Cannot redefine empty list." []))
              | fname :: params =>
                  let body :=
                    match rest with
                    | [] => val
                    | _ => SList (SIdent "begin" false :: val :: rest)
                    end in
                  ev (SList [SIdent "define" false; fname;
                             SList [SIdent "lambda" false; SList params; body]])
                     env
              end
          | _ => Ret env (Err (NotAnIdentifier ident))
          end
      | _ => Ret env (Err (ArityAtLeast 2 (len - 1)))
      end
  | M_lambda =>
      match exprs with
      | [_; SList params; body] =>
          let plen := length params in
          match lambda_params plen 0 params with
          | inl e => Ret env (Err e)
          | inr names =>
              let variadic :=
                match last params with
                | Some (SIdent _ v) => v
                | _ => false
                end in
              Ret env (Ok (Func names body variadic))
          end
      | [_; params; _] => Ret env (Err (NotAList params))
      | _ => Ret env (Err (ArityExact 2 (len - 1)))
      end
  | M_if =>
      match exprs with
      | [_; cond; then_; other] =>
          let? (env, c) := ev cond env in
          match c with
          | Bool true => ev then_ env
          | Bool false => ev other env
          | _ => Ret env (Err (NotABool cond))
          end
      | _ => Ret env (Err (ArityExact 3 (len - 1)))
      end
  | M_cond =>
      let env := enter_scope env in
      or_panic (define "else" (Bool true) env) (cond_clauses ev (tail exprs))
  | M_let =>
      match exprs with
      | [_; SList bindings; body] =>
          let env := enter_scope env in
          let_bindings ev bindings body env
      | [_; b; _] => Ret env (Err (NotAList b))
      | _ => Ret env (Err (ArityExact 2 (len - 1)))
      end
  | M_define_struct =>
      match exprs with
      | [_; SIdent name _; SList vals] =>
          match vals with
          | [] => Ret env (Err (ArityExact 1 0))
          | _ =>
              match struct_fields vals with
              | inl e => Ret env (Err e)
              | inr fields =>
                  let env := add_struct name fields env in
                  or_panic (define_all (struct_handlers name fields) env)
                    (fun env => Ret env (Ok empty))
              end
          end
      | [_; _; struct_def] => Ret env (Err (NotAList struct_def))
      | _ => Ret env (Err (ArityExact 2 (len - 1)))
      end
  | M_struct_pred =>
      match exprs with
      | [head; arg] =>
          match head with
          | SIdent ident _ =>
              let ilen := String.length ident in
              if Nat.eqb ilen 0 then Panic   (* [len - 1] underflows *)
              else
                match slice_to ident (ilen - 1) with
                | None => Panic
                | Some struct_name =>
                    let? (env, v) := ev arg env in
                    match v with
                    | Struct n _ => Ret env (Ok (Bool (String.eqb struct_name n)))
                    | _ => Ret env (Ok (Bool false))
                    end
                end
          | _ => Ret env (Ok (Bool false))
          end
      | _ => Ret env (Err (ArityExact 1 (len - 1)))
      end
  | M_struct_access =>
      match exprs with
      | [accessor; arg] =>
          match accessor with
          | SIdent acc _ =>
              match rfind_hyphen acc with
              | Some i =>
                  let struct_name := String.substring 0 i acc in
                  let field_name :=
                    String.substring (S i) (String.length acc - S i) acc in
                  let? (env, v) := ev arg env in
                  match v with
                  | Struct _ values =>
                      match get_struct env struct_name with
                      | None => Panic            (* [unwrap] *)
                      | Some struct_def =>
                          match field_index struct_def field_name with
                          | None => Panic        (* [unwrap] *)
                          | Some index =>
                              match values !! index with
                              | Some x => Ret env (Ok x)
                              | None => Panic    (* [values[index]] *)
                              end
                          end
                      end
                  | _ => Ret env (Err (Message "{} is not a struct." [v]))
                  end
              | None =>
                  Ret env (Err (MessageStr "{} is not an accessor" acc))
              end
          | _ => Ret env (Err (NotAnIdentifier accessor))
          end
      | _ => Ret env (Err (ArityExact 1 (len - 1)))
      end
  | M_struct_make =>
      match exprs with
      | head :: params =>
          match head with
          | SIdent hname _ =>
              match slice_from hname 5 with
              | None => Panic
              | Some name =>
                  match get_struct env name with
                  | None => Panic                (* [unwrap] *)
                  | Some field_names =>
                      let expected := length field_names in
                      if negb (Nat.eqb (length params) expected)
                      then Ret env (Err (ArityExact expected (length params)))
                      else eval_all ev params env (fun env values =>
                             Ret env (Ok (Struct name values)))
                  end
              end
          | _ => Ret env (Err (NotAnIdentifier head))
          end
      | [] => Panic
      end
  end.

(* ------------------------------------------------------------------ *)
(** ** The evaluator ([impl Eval for SExpr] in [src/interpreter/mod.rs]) *)

Definition SUPER : string := "#super:".
Definition SUPER_LEN : nat := 7.

(** One step of [SExpr::eval]: [ev] and [call] are the evaluator and the
    intrinsic call one level deeper. *)
Definition eval_step (H : host) (ev : evaluator)
    (call : intrinsic -> environment -> list value -> outcome)
    (e : sexpr) (env : environment) : outcome :=
  match e with
  | SNum n => Ret env (Ok (Num n))
  | SBool b => Ret env (Ok (Bool b))
  | SStr s => Ret env (Ok (Str s))
  | SIdent s _ =>
      let index := String.index 0 SUPER s in
      let contains_super := match index with Some _ => true | None => false end in
      match (match index with
             | Some _ => slice_from s SUPER_LEN
             | None => Some s
             end) with
      | None => Panic
      | Some ident =>
          let res := if contains_super then get_super env ident
                     else get env ident in
          match res with
          | Some val => Ret env (Ok val)
          | None => Ret env (Err (Unbound ident))
          end
      end
  | SList [] => Ret env (Ok empty)
  | SList ((head :: rest) as vals) =>
      let? (env, func) := ev head env in
      match func with
      | Func _ _ _ =>
          eval_all ev rest env (fun env args => eval_func ev func args env)
      | Intrinsic f =>
          eval_all ev rest env (fun env args => call f env args)
      | Macro m => call_macro ev m env vals
      | _ => Ret env (Err (NotAFunction func))
      end
  | SQuote e' => Ret env (Ok (value_of_sexpr e'))
  | SNil => Ret env (Ok empty)
  end.

Section Evaluator.
Variable H : host.

(** [SExpr::eval] with a fuel bound, and the intrinsic call it makes. *)
Fixpoint eval (fuel : nat) (e : sexpr) (env : environment) : outcome :=
  match fuel with
  | O => OutOfFuel
  | S f => eval_step H (eval f) (call_at f) e env
  end
with call_at (fuel : nat) (g : intrinsic) (env : environment)
    (args : list value) : outcome :=
  match fuel with
  | O => OutOfFuel
  | S f => call_intrinsic H (eval f) (call_at f) g env args
  end.
End Evaluator.

(* ------------------------------------------------------------------ *)
(** ** The initial environment ([Intrinsics::init_intrinsics]) *)

(** [functions::load_checks] *)
Definition load_checks : list (string * value) :=
  [("num?", Intrinsic I_is_num);
   ("bool?", Intrinsic I_is_num);
   ("str?", Intrinsic I_is_str);
   ("symbol?", Intrinsic I_is_symbol);
   ("cons?", Intrinsic I_is_cons);
   ("lambda?", Intrinsic I_is_lambda)].

(** [functions::load_trig_fns] *)
Definition load_trig_fns : list (string * value) :=
  [("sin", Intrinsic I_sin); ("cos", Intrinsic I_cos);
   ("tan", Intrinsic I_tan); ("csc", Intrinsic I_csc);
   ("sec", Intrinsic I_sec); ("cot", Intrinsic I_cot);
   ("asin", Intrinsic I_asin); ("acos", Intrinsic I_acos);
   ("atan", Intrinsic I_atan); ("atan2", Intrinsic I_atan2)].

Definition f64_PI : float := 0x1.921fb54442d18p+1%float.
Definition f64_E : float := 0x1.5bf0a8b145769p+1%float.

Definition intrinsic_bindings (H : host) : list (string * value) :=
  [("empty", empty);
   ("math/infinity", Num infinity);
   ("math/-infinity", Num neg_infinity);
   ("math/pi", Num f64_PI);
   ("math/e", Num f64_E);
   ("env/lisp-version", Str (host_pkg_version H));
   ("env/lisp-name", Str (host_pkg_name H));
   ("define", Macro M_define);
   ("lambda", Macro M_lambda);
   ("if", Macro M_if);
   ("cond", Macro M_cond);
   ("let", Macro M_let);
   ("define-struct", Macro M_define_struct);
   ("+", Intrinsic I_add);
   ("-", Intrinsic I_sub);
   ("*", Intrinsic I_mul);
   ("/", Intrinsic I_div);
   ("modulo", Intrinsic I_modulo);
   ("sqrt", Intrinsic I_sqrt);
   ("pow", Intrinsic I_pow);
   ("log", Intrinsic I_log);
   ("fibonacci", Intrinsic I_fib_rust)] ++
  load_checks ++
  [("cons", Intrinsic I_cons);
   ("car", Intrinsic I_car);
   ("cdr", Intrinsic I_cdr);
   ("len", Intrinsic I_len);
   ("nth", Intrinsic I_nth);
   ("append", Intrinsic I_append);
   ("<", Intrinsic I_is_l);
   ("<=", Intrinsic I_is_le);
   (">", Intrinsic I_is_g);
   (">=", Intrinsic I_is_ge);
   ("eq?", Intrinsic I_is_eq);
   ("or", Intrinsic I_or);
   ("and", Intrinsic I_and);
   ("not", Intrinsic I_not);
   ("exit", Intrinsic I_exit);
   ("begin", Intrinsic I_begin);
   ("print", Intrinsic I_print);
   ("println", Intrinsic I_println);
   ("apply", Intrinsic I_apply);
   ("concat", Intrinsic I_concat);
   ("eval", Intrinsic I_eval);
   ("format", Intrinsic I_format);
   ("read-line", Intrinsic I_read_line);
   ("parse", Intrinsic I_parse);
   ("import", Intrinsic I_import);
   ("read-file", Intrinsic I_read_file);
   ("write-file", Intrinsic I_write_file)] ++
  load_trig_fns.

Definition init_intrinsics (H : host) (env : environment) : option environment :=
  define_all (intrinsic_bindings H) env.

(** The environment [main] evaluates in: [Environment::default()]
    followed by [init_intrinsics()]. *)
Definition initial_env (H : host) : environment :=
  match init_intrinsics H default_env with
  | Some env => env
  | None => default_env
  end.

(** [main]'s loading loop: evaluate each expression in turn in the same
    environment, reporting errors and going on; a panic or an [exit] ends
    the process.  The list holds what each evaluation returned. *)
Fixpoint run_exprs (H : host) (fuel : nat) (es : list sexpr)
    (env : environment) : list outcome :=
  match es with
  | [] => []
  | e :: rest =>
      let o := eval H fuel e env in
      match o with
      | Ret env' _ => o :: run_exprs H fuel rest env'
      | _ => [o]
      end
  end.

(* ------------------------------------------------------------------ *)
(** ** Vocabulary of the specification *)

(** A plain (non-variadic) identifier expression. *)
Definition Id (s : string) : sexpr := SIdent s false.

Definition result_of (o : outcome) : option result :=
  match o with Ret _ r => Some r | _ => None end.

Definition depth_after (o : outcome) : option nat :=
  match o with Ret env _ => Some (depth env) | _ => None end.

(** A scope pushed on top of the stack. *)
Definition push_scope (s : gmap string value) (env : environment)
  : environment :=
  mkEnv (base env) (s :: stack env) (structs env).

(** Evaluating a closure body in the prepared scope and leaving it: the
    tail of [eval_func]. *)
Definition call_body (ev : evaluator) (body : sexpr) (env : environment)
  : outcome :=
  let? (env, res) := ev body env in
  or_panic (exit_scope env) (fun env => Ret env (Ok res)).

(** The scope that binds each name to the argument at the same position,
    in order (a later name overrides an earlier equal one). *)
Definition insert_pair (m : gmap string value) (pa : string * value)
  : gmap string value :=
  <[pa.1 := pa.2]> m.

Definition bind_scope (names : list string) (args : list value)
  : gmap string value :=
  foldl insert_pair ∅ (zip names args).

(** The states an [Environment] can be in: it starts as
    [Environment::default()] and changes only through its public
    operations. *)
Inductive reachable : environment -> Prop :=
| reach_default : reachable default_env
| reach_enter env : reachable env -> reachable (enter_scope env)
| reach_exit env env' :
    reachable env -> exit_scope env = Some env' -> reachable env'
| reach_define env key v env' :
    reachable env -> define key v env = Some env' -> reachable env'
| reach_struct env name fields :
    reachable env -> reachable (add_struct name fields env).

(** A valid UTF-8 string never starts with a continuation byte. *)
Definition utf8_lead_ok (s : string) : bool :=
  match String.get 0 s with
  | None => true
  | Some c => negb (N.eqb (N.land (Ascii.N_of_ascii c) 192) 128)
  end.

(** The variant of a value. *)
Definition variant_tag (v : value) : nat :=
  match v with
  | Num _ => 0 | Bool _ => 1 | Str _ => 2 | Symbol _ _ => 3 | List _ => 4
  | Func _ _ _ => 5 | Intrinsic _ => 6 | Macro _ => 7 | Struct _ _ => 8
  end.

Definition is_callable (v : value) : bool :=
  match v with Func _ _ _ | Intrinsic _ | Macro _ => true | _ => false end.

(** Whether a closure, intrinsic or special-form handler occurs in [v]. *)
Fixpoint holds_callable (v : value) : bool :=
  match v with
  | Func _ _ _ | Intrinsic _ | Macro _ => true
  | List vals | Struct _ vals => existsb holds_callable vals
  | _ => false
  end.

(** The sequential binding the specification gives [let]: evaluate each
    binding expression, define its name, go on; then the body; then leave
    the scope. *)
Fixpoint let_spec (ev : evaluator) (binds : list (string * sexpr))
    (body : sexpr) (env : environment) : outcome :=
  match binds with
  | [] =>
      match ev body env with
      | Ret env r => or_panic (exit_scope env) (fun env => Ret env r)
      | o => o
      end
  | (x, e) :: rest =>
      let? (env, v) := ev e env in
      or_panic (define x v env) (let_spec ev rest body)
  end.

(** A host whose library functions are placeholders, for concrete runs. *)
Definition sample_host : host :=
  mkHost (fun _ x => x) (fun _ x _ => x)
         (fun _ env _ => Ret env (Ok empty)) "rustlisp" "0.1.0".

(** The intrinsics that can stop the process or hand control elsewhere:
    [exit], [eval] and [apply] (which re-enter the engine), [nth] (the
    unchecked [vals[index]]), [fib] (the [u64] overflow check) and the
    built-ins the host implements. *)
Definition may_abort (f : intrinsic) : bool :=
  match f with
  | I_exit | I_eval | I_apply | I_nth | I_fib_rust => true
  | _ => delegated_to_host f
  end.

(* ------------------------------------------------------------------ *)
(** ** The reader ([src/parser/mod.rs])

    [Parser::next_char] reads one byte and turns it into a [char] with
    [buf[0] as char], so every character the reader sees is in
    U+0000..U+00FF: the model reads the input as a byte string and gives
    each byte the [char] of the same number. [String::push] of such a char
    appends its UTF-8 encoding ([utf8_of_char]). The one-character pushback
    stack of [undo_char] is the unconsumed rest of the input. *)

Abbreviation dquote := "034"%char.
Abbreviation backslash := "092"%char.
Abbreviation newline := "010"%char.

Definition is_whitespace (c : ascii) : bool :=
  match c with
  | "009" | "010" | "011" | "012" | "013" | " " | "133" | "160" => true
  | _ => false
  end%char.

Definition is_valid_atom (c : ascii) : bool :=
  negb (Ascii.eqb c "(" || Ascii.eqb c "[" || Ascii.eqb c ")"
        || Ascii.eqb c "]").

(** [ValidParse::is_valid_ident]. Its arm for the Greek letter lambda
    (U+03BB) can never match a char read from a single byte, so the model
    leaves it out. *)
Definition is_valid_ident (c : ascii) : bool :=
  let n := N_of_ascii c in
  existsb (Ascii.eqb c)
    ["-"; "_"; "+"; "/"; "*"; "%"; ">"; "<"; "="; "?"; "!"; "&"; "$"; ".";
     "#"; ":"]%char
  || (N.leb 97 n && N.leb n 122)
  || (N.leb 65 n && N.leb n 90)
  || (N.leb 48 n && N.leb n 57).

Definition utf8_of_char (c : ascii) : string :=
  let n := N_of_ascii c in
  if N.ltb n 128 then String c EmptyString
  else String (ascii_of_N (192 + n / 64)) (String (ascii_of_N (128 + n mod 64)) EmptyString).

Definition push_char (buf : string) (c : ascii) : string :=
  buf ++ utf8_of_char c.

Inductive parse_result : Type :=
| POk (e : sexpr) (rest : string)
| PErr (msg : string)
| PFuel.

Fixpoint skip_whitespace (cs : string) : string :=
  match cs with
  | EmptyString => EmptyString
  | String c rest => if is_whitespace c then skip_whitespace rest else cs
  end.

Fixpoint skip_to_linebreak (cs : string) : string :=
  match cs with
  | EmptyString => EmptyString
  | String c rest => if Ascii.eqb c newline then rest else skip_to_linebreak rest
  end.

Fixpoint read_atom_loop (buf : string) (cs : string) : string * string :=
  match cs with
  | EmptyString => (buf, EmptyString)
  | String c rest =>
      if negb (is_valid_atom c) then (buf, cs)
      else if is_whitespace c then (buf, cs)
      else read_atom_loop (push_char buf c) rest
  end.

Definition read_atom (cs : string) : option string * string :=
  let '(buf, rest) := read_atom_loop "" cs in
  (if String.eqb buf "" then None else Some buf, rest).

Definition ELLIPSIS : string := "...".

Definition ends_with_ellipsis (s : string) : bool :=
  Nat.leb 3 (String.length s)
  && String.eqb (String.substring (String.length s - 3) 3 s) ELLIPSIS.

Definition escape_char (c : ascii) : option ascii :=
  if Ascii.eqb c "n" then Some newline
  else if Ascii.eqb c "r" then Some (ascii_of_nat 13)
  else if Ascii.eqb c "t" then Some (ascii_of_nat 9)
  else if Ascii.eqb c dquote then Some dquote
  else if Ascii.eqb c "0" then Some (ascii_of_nat 0)
  else if Ascii.eqb c backslash then Some backslash
  else None.

Fixpoint parse_str_loop (buf : string) (cs : string) : parse_result :=
  match cs with
  | EmptyString => PErr "Unexpected EOF before end of string."
  | String c rest =>
      if Ascii.eqb c dquote then POk (SStr buf) rest
      else if Ascii.eqb c backslash then
        match rest with
        | EmptyString => parse_str_loop buf rest
        | String e rest' =>
            match escape_char e with
            | Some x => parse_str_loop (push_char buf x) rest'
            | None =>
                PErr ("Unknown escape character '\" ++ utf8_of_char e ++ "'.")
            end
        end
      else parse_str_loop (push_char buf c) rest
  end.

Section Reader.
Variable parse_f64 : string -> option float.

Definition parse_atom (cs : string) : parse_result :=
  match read_atom cs with
  | (None, _) => PErr "No atom."
  | (Some s, rest) =>
      if String.eqb s "#t" || String.eqb s "true" then POk (SBool true) rest
      else if String.eqb s "#f" || String.eqb s "false" then POk (SBool false) rest
      else match parse_f64 s with
      | Some num => POk (SNum num) rest
      | None =>
          if forallb is_valid_ident (String.list_ascii_of_string s) then
            let variadic := ends_with_ellipsis s in
            let name := if variadic
                        then String.substring 0 (String.length s - 3) s
                        else s in
            if String.eqb name "" then PErr "Empty identifier."
            else POk (SIdent name variadic) rest
          else PErr ("Invalid identifier " ++ s ++ ".")
      end
  end.

Fixpoint parse (fuel : nat) (cs : string) : parse_result :=
  match fuel with
  | O => PFuel
  | S f =>
      match skip_whitespace cs with
      | EmptyString => PErr "EOF"
      | String c rest =>
          if Ascii.eqb c ";" then parse f (skip_to_linebreak rest)
          else if Ascii.eqb c "'" then
            match parse f rest with
            | POk quoted r => POk (SQuote quoted) r
            | o => o
            end
          else if Ascii.eqb c "(" then parse_list f ")" [] rest
          else if Ascii.eqb c "[" then parse_list f "]" [] rest
          else if Ascii.eqb c dquote then parse_str_loop "" rest
          else parse_atom (String c rest)
      end
  end
with parse_list (fuel : nat) (close : ascii) (buf : list sexpr) (cs : string)
  : parse_result :=
  match fuel with
  | O => PFuel
  | S f =>
      match cs with
      | EmptyString => PErr "Unexpected EOF before end of list."
      | String c rest =>
          if is_whitespace c then parse_list f close buf rest
          else if Ascii.eqb c close then POk (SList buf) rest
          else match parse f (String c rest) with
               | POk e r => parse_list f close (buf ++ [e]) r
               | o => o
               end
      end
  end.

Definition parse_fuel (cs : string) : nat := S (2 * String.length cs).

Definition parse_expr (cs : string) : parse_result := parse (parse_fuel cs) cs.

Inductive parse_all_result : Type :=
| AOk (es : list sexpr)
| AErr (msg : string)
| AFuel.

Fixpoint parse_all_loop (fuel : nat) (results : list sexpr) (cs : string)
  : parse_all_result :=
  match fuel with
  | O => AFuel
  | S f =>
      match parse_expr cs with
      | POk e r => parse_all_loop f (results ++ [e]) r
      | PErr why => if String.eqb why "EOF" then AOk results else AErr why
      | PFuel => AFuel
      end
  end.

Definition parse_all (cs : string) : parse_all_result :=
  parse_all_loop (S (String.length cs)) [] cs.

End Reader.

Section Printer.
Variable show_f64 : float -> string.

Fixpoint display (e : sexpr) : string :=
  match e with
  | SStr s => String dquote (s ++ String dquote EmptyString)
  | SNum n => show_f64 n
  | SBool b => if b then "true" else "false"
  | SIdent s variadic => s ++ (if variadic then "..." else "")
  | SList exps =>
      let fix items (es : list sexpr) : string :=
        match es with
        | [] => ""
        | [x] => display x
        | x :: rest => display x ++ " " ++ items rest
        end in
      "(" ++ items exps ++ ")"
  | SQuote e' => "'" ++ display e'
  | SNil => "'()"
  end.
End Printer.

Section Printer2.
Variable show_f64 : float -> string.
Fixpoint display_items (es : list sexpr) : string :=
  match es with
  | [] => ""
  | [x] => display show_f64 x
  | x :: rest => display show_f64 x ++ " " ++ display_items rest
  end.
End Printer2.

Definition is_ascii (c : ascii) : bool := N.ltb (N_of_ascii c) 128.

(** The text a [String] holds after [buf.push(c)] of each byte of [s]
    read as a [char] (U+0000..U+00FF), in order. *)
Fixpoint latin1_to_utf8 (s : string) : string :=
  match s with
  | EmptyString => EmptyString
  | String c rest => utf8_of_char c ++ latin1_to_utf8 rest
  end.

Definition no_newline (t : string) : bool :=
  forallb (fun c => negb (Ascii.eqb c newline)) (String.list_ascii_of_string t).

Definition delimited (r : string) : bool :=
  match r with
  | EmptyString => true
  | String c _ => is_whitespace c || negb (is_valid_atom c)
  end.

Section Readable.
Variable parse_f64 : string -> option float.

Definition ident_reads_back (s : string) (variadic : bool) : bool :=
  let t := s ++ (if variadic then ELLIPSIS else "") in
  negb (String.eqb s "")
  && forallb is_valid_ident (String.list_ascii_of_string s)
  && negb (String.eqb t "#t" || String.eqb t "true" || String.eqb t "#f"
           || String.eqb t "false")
  && (variadic || negb (ends_with_ellipsis s))
  && match parse_f64 t with None => true | Some _ => false end.

Definition str_reads_back (s : string) : bool :=
  forallb (fun c => is_ascii c && negb (Ascii.eqb c dquote)
                    && negb (Ascii.eqb c backslash))
    (String.list_ascii_of_string s).

Fixpoint reads_back (e : sexpr) : bool :=
  match e with
  | SStr s => str_reads_back s
  | SNum _ | SNil => false
  | SBool _ => true
  | SIdent s v => ident_reads_back s v
  | SList es => forallb reads_back es
  | SQuote e' => reads_back e'
  end.
End Readable.

(** A float reader that accepts nothing and a printer for concrete runs. *)
Definition no_f64 (_ : string) : option float := None.
Definition show_zero (_ : float) : string := "0".

(* ------------------------------------------------------------------ *)
(** ** Scopes an evaluation may touch *)

(** Two environments that agree on everything but the innermost scope
    and the struct registry. *)
Definition same_frame (env env' : environment) : Prop :=
  base env' = base env /\ tail (stack env') = tail (stack env) /\
  depth env' = depth env.

Definition keeps_frame (env : environment) (o : outcome) : Prop :=
  match o with
  | Ret env' (Ok _) => same_frame env env'
  | _ => True
  end.

Definition host_keeps_frame (H : host) : Prop :=
  forall f env args, keeps_frame env (host_call H f env args).

(* ------------------------------------------------------------------ *)
(** ** Quoted data and lambda parameters *)

(** Expressions without a quote or a [Nil] inside: the data a quoted
    expression converts back to unchanged. *)
Fixpoint plain_data (e : sexpr) : bool :=
  match e with
  | SQuote _ | SNil => false
  | SList es => forallb plain_data es
  | _ => true
  end.

Definition ident_name (p : sexpr) : option string :=
  match p with SIdent s _ => Some s | _ => None end.

(* ------------------------------------------------------------------ *)
(** ** String interpolation: [split_str] ([src/intrinsics/functions.rs]) *)

Inductive str_section : Type :=
| SecStr (s : string)
| SecExpr (s : string).

Definition slice_range (s : string) (a b : nat) : option string :=
  if Nat.leb a b && is_char_boundary s a && is_char_boundary s b
  then Some (String.substring a (b - a) s) else None.

Definition is_continuation (c : Ascii.ascii) : bool :=
  N.eqb (N.land (Ascii.N_of_ascii c) 192) 128.

Fixpoint split_loop (s cs : string) (in_expr : bool) (last i : nat)
    (last_ch : Ascii.ascii) (strs : list str_section)
  : option (list str_section * bool * nat * nat) :=
  match cs with
  | EmptyString => Some (strs, in_expr, last, i)
  | String ch rest =>
      if is_continuation ch then split_loop s rest in_expr last i last_ch strs
      else if Ascii.eqb ch "{" && Ascii.eqb last_ch "#" then
        match slice_range s last (i - 1) with
        | Some sec => split_loop s rest true (S i) (S i) ch ((strs ++ [SecStr sec])%list)
        | None => None
        end
      else if Ascii.eqb ch "}" && in_expr then
        match slice_range s last i with
        | Some sec => split_loop s rest false (S i) (S i) ch ((strs ++ [SecExpr sec])%list)
        | None => None
        end
      else split_loop s rest in_expr last (S i) ch strs
  end%char.

Definition split_str (s : string) : option (string + list str_section) :=
  match split_loop s s false 0 0 "000"%char [] with
  | None => None
  | Some (strs, in_expr, last, i) =>
      match (if negb (Nat.eqb last i)
             then match slice_range s last i with
                  | Some sec => Some ((strs ++ [SecStr sec])%list)
                  | None => None
                  end
             else Some strs) with
      | None => None
      | Some strs =>
          if in_expr
          then Some (inl "Unclosed expression while interpolating string.")
          else Some (inr strs)
      end
  end.

Fixpoint char_count (s : string) : nat :=
  match s with
  | EmptyString => 0
  | String c rest => (if is_continuation c then 0 else 1) + char_count rest
  end.

Definition no_open_brace (s : string) : bool :=
  forallb (fun c => negb (Ascii.eqb c "{")) (String.list_ascii_of_string s).

Definition all_ascii (s : string) : bool :=
  forallb is_ascii (String.list_ascii_of_string s).

(** No ['{'] right after a ['#'] (with [prev] the character before [s]). *)
Fixpoint no_marker_from (prev : Ascii.ascii) (s : string) : bool :=
  match s with
  | EmptyString => true
  | String c rest =>
      negb (Ascii.eqb c "{" && Ascii.eqb prev "#") && no_marker_from c rest
  end%char.

Definition no_marker (s : string) : bool := no_marker_from "000"%char s.

Definition no_close_brace (s : string) : bool :=
  forallb (fun c => negb (Ascii.eqb c "}")) (String.list_ascii_of_string s).

Definition good_text (t : string) : bool := all_ascii t && no_marker t.
Definition good_expr (e : string) : bool :=
  all_ascii e && no_marker e && no_close_brace e.

(** Text sections and [#{expr}] sections, in order, then a final text. *)
Fixpoint render_sections (pairs : list (string * string)) (tail : string)
  : string :=
  match pairs with
  | [] => tail
  | (t, e) :: rest => t ++ "#{" ++ e ++ "}" ++ render_sections rest tail
  end.

Definition expected_sections (pairs : list (string * string)) (tail : string)
  : list str_section :=
  (flat_map (fun '(t, e) => [SecStr t; SecExpr e]) pairs ++
   (if String.eqb tail "" then [] else [SecStr tail]))%list.

Fixpoint last_char (prev : Ascii.ascii) (s : string) : Ascii.ascii :=
  match s with
  | EmptyString => prev
  | String c rest => last_char c rest
  end.

(* ------------------------------------------------------------------ *)
(** ** A fragment that reaches none of the stops of the process

    The engine stops the process at fixed places: the [exit] built-in;
    [eval] of a value holding a callable; [nth] past the end of a list;
    the overflow check of [fibonacci]; the host's built-ins; the
    [unwrap]s and the [values[index]] of a field accessor; the slice and
    the [unwrap] of a constructor called under a name that is not
    [make-{registered struct}]; a slice of an identifier at a byte that
    is not a character boundary; and [define] or [exit_scope] on an
    empty scope stack.  The fragment below keeps evaluation away from
    all of them but [exit], which halts: identifiers are ASCII, the names
    they look up hold none of the listed built-ins nor an accessor or
    constructor, and the stack is never empty.

    Accessors and constructors are bound under names with a hyphen
    ([{struct}-{field}], [make-{struct}]), so the names the fragment
    looks up have none, [define-struct] apart.  A field named [struct]
    would bind [define-struct] itself to an accessor (in
    [(define-struct define (struct))]), so no identifier of the fragment
    is [struct].  [avoid] names the bindings a program leaves alone (in
    the initial environment: [nth], [eval], [fibonacci] and the host's
    built-ins); [define], [lambda] and [begin] are always looked up,
    since [_define] writes them into the expression it rebuilds. *)

Definition no_hyphen (s : string) : bool :=
  match rfind_hyphen s with None => true | Some _ => false end.

(** The name [SExpr::eval] looks an identifier up under; [None] is the
    slicing panic. *)
Definition lookup_key (s : string) : option string :=
  match String.index 0 SUPER s with
  | Some _ => slice_from s SUPER_LEN
  | None => Some s
  end.

Definition key_ok (avoid : string -> bool) (k : string) : bool :=
  (no_hyphen k || String.eqb k "define-struct") &&
  (negb (avoid k) || bool_decide (k ∈ ["define"; "lambda"; "begin"])).

Definition ident_ok (avoid : string -> bool) (s : string) : bool :=
  all_ascii s && negb (String.eqb s "") && negb (String.eqb s "struct") &&
  match lookup_key s with Some k => key_ok avoid k | None => false end.

Fixpoint safe_expr (avoid : string -> bool) (e : sexpr) : bool :=
  match e with
  | SIdent s _ => ident_ok avoid s
  | SList es => forallb (safe_expr avoid) es
  | _ => true
  end.

Definition safe_intrinsic (f : intrinsic) : bool :=
  negb (may_abort f) ||
  match f with I_apply | I_exit => true | _ => false end.

Definition safe_macro (m : macro) : bool :=
  match m with M_struct_access | M_struct_make => false | _ => true end.

(** Values that can reach no stop when called or taken apart: a closure
    whose body is in the fragment (and which is not the variadic closure
    without parameters that [eval_func] cannot call), and the intrinsics
    and special forms above. *)
Fixpoint safe_value (avoid : string -> bool) (v : value) : bool :=
  match v with
  | List vals => forallb (safe_value avoid) vals
  | Func params body variadic =>
      safe_expr avoid body &&
      match params with [] => negb variadic | _ => true end
  | Intrinsic f => safe_intrinsic f
  | Macro m => safe_macro m
  | _ => true
  end.

Definition safe_scope (avoid : string -> bool) (m : gmap string value) : Prop :=
  map_Forall (fun k v => key_ok avoid k = true -> safe_value avoid v = true) m.

Definition safe_env (avoid : string -> bool) (env : environment) : Prop :=
  stack env <> [] /\ safe_scope avoid (base env) /\
  Forall (safe_scope avoid) (stack env).

(** An outcome that is not a panic; a return leaves an environment of the
    fragment at least [d] scopes deep, and a value of the fragment. *)
Definition safe_at (avoid : string -> bool) (d : nat) (o : outcome) : Prop :=
  match o with
  | Ret env r =>
      safe_env avoid env /\ d <= depth env /\
      match r with Ok v => safe_value avoid v = true | Err _ => True end
  | Panic => False
  | _ => True
  end.

(* ================================================================== *)
(** * Properties *)

Lemma init_intrinsics_succeeds (H : host) :
  init_intrinsics H default_env = Some (initial_env H).
Proof. unfold initial_env. vm_compute. reflexivity. Qed.

(** A concrete run: [(let ((a 1) (b (+ a 1))) b)] evaluates to 2,
    later bindings seeing earlier ones, and leaves the scope depth as it
    was. *)
Lemma sequential_let_example (H : host) :
  eval H 10
    (SList [Id "let";
            SList [SList [Id "a"; SNum 1];
                   SList [Id "b"; SList [Id "+"; Id "a"; SNum 1]]];
            Id "b"])
    (initial_env H)
  = Ret (initial_env H) (Ok (Num 2)).
Proof. vm_compute. reflexivity. Qed.

(** The program of the struct round trip. *)
Definition point_program : list sexpr :=
  [SList [Id "define-struct"; Id "Point"; SList [Id "x"; Id "y"]];
   SList [Id "define"; Id "it"; SList [Id "make-Point"; SNum 3; SNum 4]];
   SList [Id "Point-x"; Id "it"];
   SList [Id "Point-y"; Id "it"];
   SList [Id "Point?"; Id "it"];
   SList [Id "Point?"; SNum 5];
   SList [Id "make-Point"; SNum 3];
   SList [Id "make-Point"; SNum 1; SNum 2; SNum 3];
   Id "it"].

Lemma point_program_runs (H : host) :
  map result_of (run_exprs H 10 point_program (initial_env H)) =
  [Some (Ok empty); Some (Ok empty);
   Some (Ok (Num 3)); Some (Ok (Num 4));
   Some (Ok (Bool true)); Some (Ok (Bool false));
   Some (Err (ArityExact 2 1)); Some (Err (ArityExact 2 3));
   Some (Ok (Struct "Point" [Num 3; Num 4]))].
Proof. vm_compute. reflexivity. Qed.

Lemma bool_check_bound_to_num_check (H : host) :
  get (initial_env H) "bool?" = Some (Intrinsic I_is_num).
Proof. vm_compute. reflexivity. Qed.

Lemma bool_check_runs (H : host) :
  result_of (eval H 5 (SList [Id "bool?"; SBool true]) (initial_env H))
    = Some (Ok (Bool false)) /\
  result_of (eval H 5 (SList [Id "bool?"; SBool false]) (initial_env H))
    = Some (Ok (Bool false)) /\
  result_of (eval H 5 (SList [Id "bool?"; SNum 7]) (initial_env H))
    = Some (Ok (Bool true)).
Proof. vm_compute. repeat split. Qed.

(** Scope depths after failing closure calls, [cond] and [let], and a sibling path of
    [_let] that does leave its scope. *)
Lemma scope_depths_on_error_paths (H : host) :
  depth (initial_env H) = 1 /\
  depth_after (eval H 10 (SList [SList [Id "lambda"; SList [Id "x"]; Id "x"]])
                 (initial_env H)) = Some 2 /\
  depth_after (eval H 10 (SList [SList [Id "lambda"; SList [Id "x"]; Id "zz"];
                                 SNum 1])
                 (initial_env H)) = Some 2 /\
  depth_after (eval H 10 (SList [Id "cond"; SList [Id "zz"; SNum 1]])
                 (initial_env H)) = Some 2 /\
  depth_after (eval H 10 (SList [Id "let"; SList [SList [Id "a"; Id "zz"]];
                                 Id "a"])
                 (initial_env H)) = Some 2 /\
  depth_after (eval H 10 (SList [Id "let"; SList [SList [Id "a"]]; Id "a"])
                 (initial_env H)) = Some 2 /\
  depth_after (eval H 10 (SList [Id "let"; SList [SList [SNum 1; SNum 2]];
                                 Id "a"])
                 (initial_env H)) = Some 1 /\
  depth_after (eval H 10 (SList [SList [Id "lambda"; SList [Id "x"]; Id "x"];
                                 SNum 1])
                 (initial_env H)) = Some 1.
Proof. vm_compute. repeat split. Qed.

(* ------------------------------------------------------------------ *)
(** ** Parameter binding *)

Lemma bind_params_seq (params : list string) (args : list value)
    b s rest st k m :
  k + m <= length params -> k + m <= length args ->
  foldl (bind_step params args) (Some (mkEnv b (s :: rest) st)) (seq k m)
  = Some (mkEnv b (foldl insert_pair s
                     (zip (take m (drop k params)) (take m (drop k args)))
                   :: rest) st).
Proof.
  revert k s. induction m as [|m IH]; intros k s Hp Ha; [reflexivity|].
  destruct (lookup_lt_is_Some_2 params k) as [p Hpk]; [lia|].
  destruct (lookup_lt_is_Some_2 args k) as [a Hak]; [lia|].
  cbn [seq foldl].
  unfold bind_step at 2. cbn. rewrite Hpk, Hak. cbn.
  rewrite (drop_S params p k Hpk), (drop_S args a k Hak). cbn.
  apply (IH (S k) (<[p := a]> s)); lia.
Qed.

Lemma bind_params_all (params : list string) (args : list value) env n :
  n <= length params -> n <= length args ->
  bind_params params args n (enter_scope env)
  = Some (push_scope (bind_scope (take n params) (take n args)) env).
Proof.
  intros Hp Ha. unfold bind_params, enter_scope, push_scope, bind_scope.
  rewrite (bind_params_seq params args _ ∅ (stack env) _ 0 n) by lia.
  rewrite !drop_0. reflexivity.
Qed.

Lemma foldl_insert_pair_notin (l : list (string * value)) m p :
  p ∉ l.*1 -> foldl insert_pair m l !! p = m !! p.
Proof.
  revert m. induction l as [|[q a] l IH]; intros m Hn; [reflexivity|].
  cbn in *. rewrite IH by set_solver. unfold insert_pair; cbn.
  apply lookup_insert_ne. set_solver.
Qed.

Lemma foldl_insert_pair_in (l : list (string * value)) m p a :
  NoDup l.*1 -> (p, a) ∈ l -> foldl insert_pair m l !! p = Some a.
Proof.
  revert m. induction l as [|[q b] l IH]; intros m Hnd Hin.
  - set_solver.
  - cbn in *. apply NoDup_cons in Hnd as [Hq Hnd].
    apply elem_of_cons in Hin as [Heq | Hin].
    + inversion Heq; subst. rewrite foldl_insert_pair_notin by done.
      unfold insert_pair; cbn. apply lookup_insert_eq.
    + by apply IH.
Qed.

Lemma elem_of_zip_fst (l : list string) (k : list value) x :
  x ∈ (zip l k).*1 -> x ∈ l.
Proof.
  revert k. induction l as [|z l IH]; intros [|w k] Hin; cbn in *;
    try by apply not_elem_of_nil in Hin.
  apply elem_of_cons in Hin as [->|Hin]; [left|right; by apply (IH k)].
Qed.

Lemma NoDup_zip_fst (l : list string) (k : list value) :
  NoDup l -> NoDup (zip l k).*1.
Proof.
  revert k. induction l as [|x l IH]; intros [|y k] Hnd; cbn;
    try apply NoDup_nil_2.
  apply NoDup_cons in Hnd as [Hx Hnd]. apply NoDup_cons_2; [|by apply IH].
  intros Hin. apply Hx. by apply elem_of_zip_fst in Hin.
Qed.

Lemma bind_scope_lookup (params : list string) (args : list value) i p a :
  NoDup params -> params !! i = Some p -> args !! i = Some a ->
  bind_scope params args !! p = Some a.
Proof.
  intros Hnd Hp Ha. unfold bind_scope.
  apply foldl_insert_pair_in; [by apply NoDup_zip_fst|].
  apply list_elem_of_lookup_2 with i.
  rewrite lookup_zip_with, Hp, Ha. reflexivity.
Qed.

(** C4: applying a non-variadic closure with [n] parameters to [k]
    arguments fails with the exact-arity error [ArityExact n k] whenever
    [k <> n]; when [k = n] it evaluates the body in one new scope that
    binds the parameters to the arguments position by position, in order
    (with distinct names, parameter [i] is bound to argument [i]). *)
Theorem apply_fixed_arity (ev : evaluator) (params : list string)
    (body : sexpr) (args : list value) (env : environment) :
  (length args <> length params ->
   eval_func ev (Func params body false) args env
   = Ret (enter_scope env) (Err (ArityExact (length params) (length args))))
  /\
  (length args = length params ->
   eval_func ev (Func params body false) args env
   = call_body ev body (push_scope (bind_scope params args) env))
  /\
  (forall i p a, NoDup params -> params !! i = Some p -> args !! i = Some a ->
   bind_scope params args !! p = Some a).
Proof.
  split; [|split].
  - intros Hne. unfold eval_func. cbn zeta.
    destruct (Nat.eqb_spec (length params) (length args)); [lia|].
    reflexivity.
  - intros Heq. unfold eval_func. cbn zeta.
    rewrite Heq, Nat.eqb_refl. cbn [negb].
    rewrite <- Heq, bind_params_all by lia.
    rewrite !take_ge by lia. reflexivity.
  - intros i p a. apply bind_scope_lookup.
Qed.

(** C5: applying a variadic closure with parameters [leading ++ [rest]]
    ([n - 1 = length leading]) to [k] arguments fails with the
    at-least-arity error [ArityAtLeast (n - 1) k] whenever [k < n - 1];
    otherwise the body runs in one new scope where the leading parameters
    are bound positionally to the first [n - 1] arguments and [rest] to the
    list of the remaining arguments, in order (empty when [k = n - 1]). *)
Theorem apply_variadic_arity (ev : evaluator) (leading : list string)
    (rest : string) (body : sexpr) (args : list value) (env : environment) :
  (length args < length leading ->
   eval_func ev (Func (leading ++ [rest]) body true) args env
   = Ret (enter_scope env)
       (Err (ArityAtLeast (length leading) (length args))))
  /\
  (length leading <= length args ->
   eval_func ev (Func (leading ++ [rest]) body true) args env
   = call_body ev body
       (push_scope (<[rest := List (drop (length leading) args)]>
                      (bind_scope leading (take (length leading) args))) env))
  /\
  (forall i p a, NoDup (leading ++ [rest]) ->
   leading !! i = Some p -> args !! i = Some a ->
   (<[rest := List (drop (length leading) args)]>
      (bind_scope leading (take (length leading) args))) !! p = Some a)
  /\
  (length args = length leading -> drop (length leading) args = []).
Proof.
  split; [|split; [|split]].
  - intros Hlt. unfold eval_func. cbn zeta.
    rewrite length_app; cbn [length].
    replace (length leading + 1 - 1) with (length leading) by lia.
    rewrite Nat.add_1_r; cbn [Nat.eqb].
    destruct (Nat.ltb_spec (length args) (length leading)); [|lia].
    reflexivity.
  - intros Hle. unfold eval_func. cbn zeta.
    rewrite length_app; cbn [length].
    replace (length leading + 1 - 1) with (length leading) by lia.
    rewrite Nat.add_1_r; cbn [Nat.eqb].
    destruct (Nat.ltb_spec (length args) (length leading)); [lia|].
    rewrite bind_params_all by (rewrite ?length_app; cbn; lia).
    rewrite take_app_length. cbn [or_panic].
    rewrite list_lookup_middle by reflexivity.
    destruct (Nat.leb_spec (S (length leading)) (length args)).
    + reflexivity.
    + rewrite (drop_ge args (length leading)) by lia. reflexivity.
  - intros i p a Hnd Hp Ha.
    apply NoDup_app in Hnd as (Hnd & Hdis & _).
    rewrite lookup_insert_ne.
    + apply (bind_scope_lookup _ _ i); [done|done|].
      apply lookup_lt_Some in Hp as Hlt.
      rewrite lookup_take_lt by lia. done.
    + intros Heq. subst rest. apply (Hdis p); [|set_solver].
      by apply list_elem_of_lookup_2 in Hp.
  - intros Heq. apply drop_ge. lia.
Qed.

Lemma get_define_top (b : gmap string value) s ss st x v :
  get (mkEnv b (<[x := v]> s :: ss) st) x = Some v.
Proof. unfold get; cbn. by rewrite lookup_insert_eq. Qed.

(** C9: a [let] form enters one fresh scope and runs [let_spec] there:
    the pairs are evaluated left to right, each result is defined in the
    scope before the next expression is evaluated (so that expression
    sees it through [get]), and the body is then evaluated in that scope;
    [(let ((a 1) (b (+ a 1))) b)] evaluates to 2. *)
Theorem let_sequential (ev : evaluator) (binds : list (string * sexpr))
    (body : sexpr) (h : sexpr) (env : environment) :
  call_macro ev M_let env
    [h; SList (map (fun '(x, e) => SList [Id x; e]) binds); body]
  = let_spec ev binds body (enter_scope env)
  /\
  (forall x e rest env1 s ss v,
     ev e env1 = Ret (mkEnv (base env1) (s :: ss) (structs env1)) (Ok v) ->
     let env2 := mkEnv (base env1) (<[x := v]> s :: ss) (structs env1) in
     let_spec ev ((x, e) :: rest) body env1 = let_spec ev rest body env2
     /\ get env2 x = Some v)
  /\
  (forall H : host,
     eval H 10
       (SList [Id "let";
               SList [SList [Id "a"; SNum 1];
                      SList [Id "b"; SList [Id "+"; Id "a"; SNum 1]]];
               Id "b"])
       (initial_env H)
     = Ret (initial_env H) (Ok (Num 2))).
Proof.
  split; [|split].
  - cbn [call_macro]. generalize (enter_scope env). clear env.
    induction binds as [|[x e] rest IH]; intros env; [reflexivity|].
    cbn [map let_bindings let_spec].
    destruct (ev e env) as [env' [v|err]| | |]; cbn; try reflexivity.
    destruct (define x v env'); cbn; [apply IH|reflexivity].
  - intros x e rest env1 s ss v Hev env2. split.
    + cbn [let_spec]. rewrite Hev. reflexivity.
    + apply get_define_top.
  - apply sequential_let_example.
Qed.

Lemma eval_plain_ident (H : host) f s b env :
  String.index 0 SUPER s = None ->
  eval H (S f) (SIdent s b) env
  = match get env s with
    | Some v => Ret env (Ok v)
    | None => Ret env (Err (Unbound s))
    end.
Proof. intros Hi. cbn [eval eval_step]. rewrite Hi. reflexivity. Qed.

(** C10: the name [bool?] of the initial environment is bound to the
    num-check intrinsic, so [(bool? e)] returns true exactly when the value
    of [e] is a number: [(bool? true)] and [(bool? false)] return false. *)
Theorem bool_check_is_num_check (H : host) :
  get (initial_env H) "bool?" = Some (Intrinsic I_is_num)
  /\
  (forall fuel env v,
     call_at H (S fuel) I_is_num env [v] = Ret env (Ok (Bool (is_num v))))
  /\
  (forall v, is_num v = true <-> exists n, v = Num n)
  /\
  (forall fuel e env env' v,
     get env "bool?" = Some (Intrinsic I_is_num) ->
     eval H (S fuel) e env = Ret env' (Ok v) ->
     eval H (S (S fuel)) (SList [Id "bool?"; e]) env
     = Ret env' (Ok (Bool (is_num v))))
  /\
  result_of (eval H 5 (SList [Id "bool?"; SBool true]) (initial_env H))
    = Some (Ok (Bool false))
  /\
  result_of (eval H 5 (SList [Id "bool?"; SBool false]) (initial_env H))
    = Some (Ok (Bool false)).
Proof.
  split; [apply bool_check_bound_to_num_check|].
  split; [reflexivity|].
  split; [intros []; cbn; split; try (intros [? ?]; discriminate);
          eauto; discriminate|].
  split.
  - intros fuel e env env' v Hget He.
    change (eval H (S (S fuel)) (SList [Id "bool?"; e]) env)
      with (eval_step H (eval H (S fuel)) (call_at H (S fuel))
              (SList [Id "bool?"; e]) env).
    unfold eval_step, Id. rewrite eval_plain_ident by reflexivity.
    rewrite Hget. cbn [bind_val eval_all]. rewrite He. reflexivity.
  - destruct (bool_check_runs H) as (? & ? & _). split; assumption.
Qed.

Lemma value_eq_list (xs ys : list value) :
  value_eq (List xs) (List ys) = true
  <-> Forall2 (fun x y => value_eq x y = true) xs ys.
Proof.
  revert ys. induction xs as [|x xs IH]; intros [|y ys]; cbn.
  - split; [constructor|done].
  - split; [discriminate|intros Hf; inversion Hf].
  - split; [discriminate|intros Hf; inversion Hf].
  - specialize (IH ys). cbn in IH.
    destruct (Nat.eqb (length xs) (length ys)).
    + rewrite andb_true_iff, IH. split.
      * intros [? ?]. by constructor.
      * intros Hf. by inversion Hf.
    + split; [discriminate|].
      intros Hf. inversion Hf; subst. by apply IH.
Qed.

Lemma value_eq_struct (xt yt : string) (xs ys : list value) :
  value_eq (Struct xt xs) (Struct yt ys)
  = String.eqb xt yt && value_eq (List xs) (List ys).
Proof.
  cbn. destruct (String.eqb xt yt); cbn; [|reflexivity].
  destruct (Nat.eqb (length xs) (length ys)); reflexivity.
Qed.

Lemma value_eq_callable (v w : value) :
  is_callable v = true -> value_eq v w = false /\ value_eq w v = false.
Proof. destruct v; try discriminate; destruct w; split; reflexivity. Qed.

(** C6: [value_eq] (Rust's [PartialEq for Value], used by [eq?]) holds
    only between values of the same variant; on lists it holds exactly
    when the lists have equal lengths and equal members position by
    position; on struct instances exactly when the type names are equal
    and the fields are equal in order; a closure, intrinsic or handler is
    equal to no value, itself included, and [eq?] then returns false. *)
Theorem value_eq_structural (H : host) (ev : evaluator)
    (call : intrinsic -> environment -> list value -> outcome) :
  (forall a b, value_eq a b = true -> variant_tag a = variant_tag b)
  /\
  (forall xs ys, value_eq (List xs) (List ys) = true
     <-> length xs = length ys
         /\ Forall2 (fun x y => value_eq x y = true) xs ys)
  /\
  (forall xt xs yt ys, value_eq (Struct xt xs) (Struct yt ys) = true
     <-> xt = yt /\ length xs = length ys
         /\ Forall2 (fun x y => value_eq x y = true) xs ys)
  /\
  (forall v w, is_callable v = true ->
     value_eq v w = false /\ value_eq w v = false
     /\ forall env,
        call_intrinsic H ev call I_is_eq env [v; w] = Ret env (Ok (Bool false))
        /\ call_intrinsic H ev call I_is_eq env [w; v]
           = Ret env (Ok (Bool false))).
Proof.
  split; [|split; [|split]].
  - intros [] []; cbn; done.
  - intros xs ys. rewrite value_eq_list. split.
    + intros Hf. split; [by eapply Forall2_length|done].
    + by intros [_ ?].
  - intros xt xs yt ys. rewrite value_eq_struct, andb_true_iff,
      String.eqb_eq, value_eq_list. split.
    + intros [-> Hf]. split; [done|]. split; [by eapply Forall2_length|done].
    + by intros (-> & _ & ?).
  - intros v w Hc. destruct (value_eq_callable v w Hc) as [H1 H2].
    split; [done|]. split; [done|].
    intros env. split; cbn; [by rewrite H1|by rewrite H2].
Qed.

(** Induction over values and expressions, with a hypothesis for every
    member of a nested list. *)
Lemma value_nested_ind (P : value -> Prop)
    (f_num : forall n, P (Num n)) (f_bool : forall b, P (Bool b))
    (f_str : forall s, P (Str s)) (f_sym : forall s b, P (Symbol s b))
    (f_list : forall vs, Forall P vs -> P (List vs))
    (f_func : forall ps body b, P (Func ps body b))
    (f_intr : forall f, P (Intrinsic f)) (f_mac : forall m, P (Macro m))
    (f_struct : forall n vs, Forall P vs -> P (Struct n vs)) :
  forall v, P v.
Proof.
  exact (fix go v :=
    let fix go_all vs : Forall P vs :=
      match vs with
      | [] => Forall_nil_2 P
      | x :: xs => Forall_cons_2 P x xs (go x) (go_all xs)
      end in
    match v with
    | Num n => f_num n | Bool b => f_bool b | Str s => f_str s
    | Symbol s b => f_sym s b | List vs => f_list vs (go_all vs)
    | Func ps body b => f_func ps body b | Intrinsic f => f_intr f
    | Macro m => f_mac m | Struct n vs => f_struct n vs (go_all vs)
    end).
Qed.

Lemma sexpr_nested_ind (P : sexpr -> Prop)
    (f_str : forall s, P (SStr s)) (f_num : forall n, P (SNum n))
    (f_bool : forall b, P (SBool b)) (f_id : forall s b, P (SIdent s b))
    (f_list : forall es, Forall P es -> P (SList es))
    (f_quote : forall e, P e -> P (SQuote e)) (f_nil : P SNil) :
  forall e, P e.
Proof.
  exact (fix go e :=
    let fix go_all es : Forall P es :=
      match es with
      | [] => Forall_nil_2 P
      | x :: xs => Forall_cons_2 P x xs (go x) (go_all xs)
      end in
    match e with
    | SStr s => f_str s | SNum n => f_num n | SBool b => f_bool b
    | SIdent s b => f_id s b | SList es => f_list es (go_all es)
    | SQuote e' => f_quote e' (go e') | SNil => f_nil
    end).
Qed.

Lemma sexpr_of_value_nil : sexpr_of_value (List []) = Some (SList []).
Proof. reflexivity. Qed.

Lemma sexpr_of_value_cons (v : value) (vs : list value) :
  sexpr_of_value (List (v :: vs))
  = match sexpr_of_value v, sexpr_of_value (List vs) with
    | Some e, Some (SList es) => Some (SList (e :: es))
    | _, _ => None
    end.
Proof. cbn. repeat case_match; congruence. Qed.

Lemma sexpr_of_value_struct (name : string) (vs : list value) :
  sexpr_of_value (Struct name vs)
  = match sexpr_of_value (List vs) with
    | Some (SList es) => Some (SList (SIdent ("make-" ++ name) false :: es))
    | _ => None
    end.
Proof. cbn. repeat case_match; congruence. Qed.

Lemma sexpr_of_value_list_shape (vs : list value) :
  sexpr_of_value (List vs) = None
  \/ exists es, sexpr_of_value (List vs) = Some (SList es).
Proof. cbn. case_match; eauto. Qed.

Lemma sexpr_of_value_list_none (vs : list value) :
  Forall (fun v => sexpr_of_value v = None <-> holds_callable v = true) vs ->
  sexpr_of_value (List vs) = None <-> existsb holds_callable vs = true.
Proof.
  induction 1 as [|v vs Hv Hvs IH]; [split; discriminate|].
  rewrite sexpr_of_value_cons. cbn [existsb]. rewrite orb_true_iff, <- Hv, <- IH.
  destruct (sexpr_of_value v); [|split; auto].
  destruct (sexpr_of_value_list_shape vs) as [-> | [es ->]].
  - split; auto.
  - split; [discriminate|intros [? | ?]; discriminate].
Qed.

Lemma sexpr_of_value_none (v : value) :
  sexpr_of_value v = None <-> holds_callable v = true.
Proof.
  induction v using value_nested_ind; try (split; discriminate);
    try (split; reflexivity).
  - by apply sexpr_of_value_list_none.
  - rewrite sexpr_of_value_struct. cbn [holds_callable].
    rewrite <- sexpr_of_value_list_none by done.
    destruct (sexpr_of_value_list_shape vs) as [-> | [es ->]];
      split; auto; discriminate.
Qed.

Lemma holds_callable_of_sexpr (e : sexpr) :
  holds_callable (value_of_sexpr e) = false.
Proof.
  induction e using sexpr_nested_ind; try reflexivity; [|done].
  cbn. induction H as [|x xs Hx _ IH]; [reflexivity|].
  cbn. by rewrite Hx, IH.
Qed.

(** C7 (as stated, refuted): a list value is not always converted back to
    an expression: the list holding the intrinsic [+] hits the [panic!]
    arm of [Into<SExpr> for Value]. *)
Lemma list_of_intrinsic_does_not_convert :
  sexpr_of_value (List [Intrinsic I_add]) = None.
Proof. reflexivity. Qed.

(** C7 (amended): converting an expression to a value is total and its
    result always converts back; converting a value back to an expression
    fails (the non-recoverable [panic!], which [eval] hits) exactly when a
    closure, intrinsic or special-form handler occurs somewhere in the
    value, and otherwise succeeds, a struct instance becoming the list
    form [(make-Name field1 field2 ...)]. *)
Theorem value_to_sexpr_fails_on_callables :
  (forall v, sexpr_of_value v = None <-> holds_callable v = true)
  /\
  (forall name vs es, sexpr_of_value (List vs) = Some (SList es) ->
     sexpr_of_value (Struct name vs)
     = Some (SList (SIdent ("make-" ++ name) false :: es)))
  /\
  (forall e, holds_callable (value_of_sexpr e) = false
     /\ exists e', sexpr_of_value (value_of_sexpr e) = Some e')
  /\
  (forall H ev call env v, holds_callable v = true ->
     call_intrinsic H ev call I_eval env [v] = Panic).
Proof.
  split; [exact sexpr_of_value_none|]. split; [|split].
  - intros name vs es Hl. by rewrite sexpr_of_value_struct, Hl.
  - intros e. split; [apply holds_callable_of_sexpr|].
    destruct (sexpr_of_value (value_of_sexpr e)) as [e'|] eqn:Hc; [eauto|].
    apply sexpr_of_value_none in Hc. by rewrite holds_callable_of_sexpr in Hc.
  - intros H ev call env v Hv. apply sexpr_of_value_none in Hv.
    cbn. by rewrite Hv.
Qed.

(* ------------------------------------------------------------------ *)
(** ** Name resolution *)

Lemma reachable_base_empty (env : environment) :
  reachable env -> base env = ∅.
Proof.
  induction 1 as [| env _ IH | env env' _ IH Hx | env k v env' _ IH Hd
                 | env n f _ IH]; try done.
  - unfold exit_scope in Hx. destruct (stack env); [done|].
    by injection Hx as <-.
  - unfold define in Hd. destruct (stack env); [done|].
    by injection Hd as <-.
Qed.

Lemma lookup_scopes_app_empty (key : string) (l : list (gmap string value)) :
  lookup_scopes key (l ++ [∅]) = lookup_scopes key l.
Proof.
  induction l as [|s l IH]; [reflexivity|].
  cbn. destruct (s !! key); [reflexivity|exact IH].
Qed.

Lemma string_app_nil (x : string) : "" ++ x = x.
Proof. reflexivity. Qed.

Lemma string_app_cons (c : Ascii.ascii) (p x : string) :
  String c p ++ x = String c (p ++ x).
Proof. reflexivity. Qed.

Lemma string_length_app (p x : string) :
  String.length (p ++ x) = String.length p + String.length x.
Proof.
  induction p; rewrite ?string_app_nil, ?string_app_cons; cbn; congruence.
Qed.

Lemma string_get_app_prefix (p x : string) (i : nat) :
  String.get (String.length p + i) (p ++ x) = String.get i x.
Proof.
  induction p; rewrite ?string_app_nil, ?string_app_cons; cbn; auto.
Qed.

Lemma substring_app_prefix (p x : string) (n : nat) :
  String.substring (String.length p) n (p ++ x) = String.substring 0 n x.
Proof.
  induction p; rewrite ?string_app_nil, ?string_app_cons; cbn; auto.
Qed.

Lemma substring_whole (x : string) :
  String.substring 0 (String.length x) x = x.
Proof. induction x; cbn; congruence. Qed.

(** [&(p + x)[p.len()..]] is [x] when [x] starts on a character
    boundary. *)
Lemma slice_from_app_prefix (p x : string) :
  utf8_lead_ok x = true -> slice_from (p ++ x) (String.length p) = Some x.
Proof.
  intros Hx. unfold slice_from.
  assert (Hb : is_char_boundary (p ++ x) (String.length p) = true).
  { unfold is_char_boundary.
    rewrite <- (Nat.add_0_r (String.length p)) at 2.
    rewrite string_get_app_prefix.
    unfold utf8_lead_ok in Hx. destruct (String.get 0 x) as [c|] eqn:Hg.
    - rewrite Hx. apply orb_true_r.
    - rewrite string_length_app. apply orb_true_iff; right.
      destruct x; [|discriminate]. cbn. rewrite Nat.add_0_r.
      apply Nat.eqb_refl. }
  rewrite Hb. f_equal.
  rewrite string_length_app, Nat.add_comm, Nat.add_sub.
  rewrite substring_app_prefix. apply substring_whole.
Qed.

Lemma index_super_prefix (x : string) :
  String.index 0 SUPER (SUPER ++ x) = Some 0.
Proof.
  unfold SUPER. rewrite !string_app_cons, string_app_nil.
  (* [prefix] recurses on its second argument *)
  destruct x; reflexivity.
Qed.

(** C3: in every state an environment can reach, [get] returns the first
    binding met going from the innermost scope down to the base scope, and
    [get_super] the first one met in the same search started one scope
    below the innermost, or the base scope's binding when the stack holds
    one scope; so with the two innermost scopes binding [x], the
    identifier [#super:x] evaluates to the binding of the second one. *)
Theorem get_super_skips_innermost (H : host) (env : environment)
    (Hr : reachable env) :
  (forall key, get env key = lookup_scopes key (stack env ++ [base env]))
  /\
  (forall key, get_super env key =
     if Nat.ltb 1 (length (stack env))
     then lookup_scopes key (tail (stack env) ++ [base env])
     else base env !! key)
  /\
  (forall fuel x b v1 v2 s1 s2 rest,
     stack env = s1 :: s2 :: rest -> s1 !! x = Some v1 -> s2 !! x = Some v2 ->
     utf8_lead_ok x = true ->
     get env x = Some v1 /\
     eval H (S fuel) (SIdent (SUPER ++ x) b) env = Ret env (Ok v2)).
Proof.
  pose proof (reachable_base_empty env Hr) as Hb.
  split; [|split].
  - intros key. unfold get. by rewrite Hb, lookup_scopes_app_empty.
  - intros key. unfold get_super. by rewrite Hb, lookup_scopes_app_empty.
  - intros fuel x b v1 v2 s1 s2 rest Hs H1 H2 Hx. split.
    + unfold get. by rewrite Hs; cbn; rewrite H1.
    + cbn [eval eval_step]. rewrite index_super_prefix.
      change SUPER_LEN with (String.length SUPER).
      rewrite slice_from_app_prefix by done.
      unfold get_super. rewrite Hs. cbn. by rewrite H2.
Qed.

(** A state with two scopes binding [x] differently, reached from the
    default environment. *)
Lemma get_super_skips_innermost_witness :
  reachable (mkEnv ∅ [<["x" := Bool false]> ∅; <["x" := Bool true]> ∅] ∅)
  /\ eval sample_host 1 (SIdent (SUPER ++ "x") false)
       (mkEnv ∅ [<["x" := Bool false]> ∅; <["x" := Bool true]> ∅] ∅)
     = Ret (mkEnv ∅ [<["x" := Bool false]> ∅; <["x" := Bool true]> ∅] ∅)
           (Ok (Bool true)).
Proof.
  assert (Hr : reachable
    (mkEnv ∅ [<["x" := Bool false]> ∅; <["x" := Bool true]> ∅] ∅)).
  { apply (reach_define (mkEnv ∅ [∅; <["x" := Bool true]> ∅] ∅)
             "x" (Bool false)); [|reflexivity].
    apply (reach_enter (mkEnv ∅ [<["x" := Bool true]> ∅] ∅)).
    apply (reach_define default_env "x" (Bool true)); [|reflexivity].
    apply reach_default. }
  split; [exact Hr|].
  destruct (get_super_skips_innermost sample_host _ Hr) as (_ & _ & Hsup).
  exact (proj2 (Hsup 0 "x" false (Bool false) (Bool true) _ _ _
                 eq_refl eq_refl eq_refl eq_refl)).
Defined.

(* ------------------------------------------------------------------ *)
(** ** The handlers of [define-struct] *)

Lemma substring_app_prefix_gen (p x : string) (k n : nat) :
  String.substring (String.length p + k) n (p ++ x) = String.substring k n x.
Proof.
  induction p; rewrite ?string_app_nil, ?string_app_cons; cbn; auto.
Qed.

Lemma substring_app_front (p x : string) :
  String.substring 0 (String.length p) (p ++ x) = p.
Proof.
  induction p; rewrite ?string_app_nil, ?string_app_cons; cbn;
    [by destruct x|congruence].
Qed.

Lemma slice_to_question (name : string) :
  slice_to (name ++ "?") (String.length name) = Some name.
Proof.
  unfold slice_to.
  assert (Hb : is_char_boundary (name ++ "?") (String.length name) = true).
  { unfold is_char_boundary. rewrite <- (Nat.add_0_r (String.length name)) at 2.
    rewrite string_get_app_prefix. apply orb_true_r. }
  rewrite Hb. f_equal. apply substring_app_front.
Qed.

Lemma rfind_hyphen_from_none (s : string) (p q : nat) :
  rfind_hyphen_from s p = None -> rfind_hyphen_from s q = None.
Proof.
  revert p q. induction s as [|c s IH]; intros p q; cbn; [done|].
  destruct (rfind_hyphen_from s (S p)) eqn:E; [discriminate|].
  rewrite (IH (S p) (S q) E). by destruct (Ascii.eqb c hyphen).
Qed.

Lemma rfind_hyphen_from_app (p s : string) (pos : nat) :
  rfind_hyphen_from (p ++ s) pos
  = match rfind_hyphen_from s (String.length p + pos) with
    | Some i => Some i
    | None => rfind_hyphen_from p pos
    end.
Proof.
  revert pos. induction p as [|c p IH]; intros pos;
    rewrite ?string_app_nil, ?string_app_cons.
  - cbn. by destruct (rfind_hyphen_from s pos).
  - cbn [rfind_hyphen_from]. rewrite IH. cbn [String.length].
    rewrite Nat.add_succ_r. by destruct (rfind_hyphen_from s _).
Qed.

(** The accessor name [{struct}-{field}] splits at its last hyphen into
    the struct name and a field name without a hyphen. *)
Lemma rfind_hyphen_accessor (sname field : string) :
  rfind_hyphen field = None ->
  rfind_hyphen (sname ++ "-" ++ field) = Some (String.length sname).
Proof.
  intros Hf. unfold rfind_hyphen. rewrite rfind_hyphen_from_app.
  rewrite string_app_cons, string_app_nil. cbn [rfind_hyphen_from].
  rewrite (rfind_hyphen_from_none field 0 _ Hf). cbn.
  by rewrite Nat.add_0_r.
Qed.

Lemma accessor_field_name (sname field : string) :
  String.substring (S (String.length sname))
    (String.length (sname ++ "-" ++ field) - S (String.length sname))
    (sname ++ "-" ++ field) = field.
Proof.
  rewrite string_length_app, string_app_cons, string_app_nil.
  cbn [String.length].
  replace (String.length sname + S (String.length field)
           - S (String.length sname)) with (String.length field) by lia.
  rewrite <- Nat.add_1_r, substring_app_prefix_gen. cbn.
  apply substring_whole.
Qed.

(** C8: after [(define-struct Point (x y))], [(make-Point 3 4)] gives the
    instance [Point 3 4], [(Point-x it)] evaluates to 3, [(Point-y it)] to
    4, [(Point? it)] to true and [(Point? 5)] to false.  In general the
    predicate [{name}?] compares [name] with the type name of the instance;
    the constructor [make-{name}] rejects an argument count different from
    the registered field count with [ArityExact]; and an accessor
    [{name}-{field}] looks [name] up in the struct registry when it is
    called and returns the value at the index of [field] there. *)
Theorem struct_round_trip (H : host) :
  map result_of (run_exprs H 10 point_program (initial_env H)) =
  [Some (Ok empty); Some (Ok empty);
   Some (Ok (Num 3)); Some (Ok (Num 4));
   Some (Ok (Bool true)); Some (Ok (Bool false));
   Some (Err (ArityExact 2 1)); Some (Err (ArityExact 2 3));
   Some (Ok (Struct "Point" [Num 3; Num 4]))]
  /\
  (forall ev env env' name b arg v,
     ev arg env = Ret env' (Ok v) ->
     call_macro ev M_struct_pred env [SIdent (name ++ "?") b; arg]
     = Ret env' (Ok (Bool (match v with
                           | Struct n _ => String.eqb name n
                           | _ => false
                           end))))
  /\
  (forall ev env name b params fields,
     get_struct env name = Some fields ->
     length params <> length fields ->
     utf8_lead_ok name = true ->
     call_macro ev M_struct_make env (SIdent ("make-" ++ name) b :: params)
     = Ret env (Err (ArityExact (length fields) (length params))))
  /\
  (forall ev env env' sname field b arg t values fields i v,
     rfind_hyphen field = None ->
     ev arg env = Ret env' (Ok (Struct t values)) ->
     get_struct env' sname = Some fields ->
     field_index fields field = Some i ->
     values !! i = Some v ->
     call_macro ev M_struct_access env [SIdent (sname ++ "-" ++ field) b; arg]
     = Ret env' (Ok v)).
Proof.
  split; [apply point_program_runs|]. split; [|split].
  - intros ev env env' name b arg v Hev. cbn [call_macro].
    rewrite string_length_app. cbn [String.length].
    rewrite Nat.add_1_r. cbn [Nat.eqb]. rewrite Nat.sub_1_r. cbn [Nat.pred].
    rewrite slice_to_question. cbn. rewrite Hev. cbn.
    by destruct v.
  - intros ev env name b params fields Hs Hne Hn. cbn [call_macro].
    change 5 with (String.length "make-").
    rewrite slice_from_app_prefix by done. rewrite Hs.
    destruct (Nat.eqb_spec (length params) (length fields)); [lia|].
    reflexivity.
  - intros ev env env' sname field b arg t values fields i v
      Hf Hev Hs Hi Hv. cbn [call_macro].
    rewrite rfind_hyphen_accessor by done.
    rewrite accessor_field_name, substring_app_front.
    cbn. rewrite Hev. cbn. by rewrite Hs, Hi, Hv.
Qed.

(* ------------------------------------------------------------------ *)
(** ** Failures reported as data *)






(* ------------------------------------------------------------------ *)
(** ** Scope balance *)

(** C1 (the code does not keep it): a closure application that fails on
    its arity, or whose body fails, returns with the scope it entered
    still on the stack; so do [cond] when a test fails and [let] when a
    binding has the wrong shape or its expression fails.  From the
    initial environment (depth 1) these leave depth 2, while [let] with a
    non-identifier name and a successful call come back to depth 1. *)
Theorem scope_leaks_on_error_paths (H : host) :
  (forall ev params body args env,
     length args <> length params ->
     exists env' e, eval_func ev (Func params body false) args env
                    = Ret env' (Err e)
                    /\ depth env' = S (depth env))
  /\
  (forall ev params body args env env' e,
     length args = length params ->
     ev body (push_scope (bind_scope params args) env) = Ret env' (Err e) ->
     eval_func ev (Func params body false) args env = Ret env' (Err e))
  /\
  depth (initial_env H) = 1 /\
  depth_after (eval H 10 (SList [SList [Id "lambda"; SList [Id "x"]; Id "x"]])
                 (initial_env H)) = Some 2 /\
  depth_after (eval H 10 (SList [SList [Id "lambda"; SList [Id "x"]; Id "zz"];
                                 SNum 1])
                 (initial_env H)) = Some 2 /\
  depth_after (eval H 10 (SList [Id "cond"; SList [Id "zz"; SNum 1]])
                 (initial_env H)) = Some 2 /\
  depth_after (eval H 10 (SList [Id "let"; SList [SList [Id "a"; Id "zz"]];
                                 Id "a"])
                 (initial_env H)) = Some 2 /\
  depth_after (eval H 10 (SList [Id "let"; SList [SList [Id "a"]]; Id "a"])
                 (initial_env H)) = Some 2 /\
  depth_after (eval H 10 (SList [Id "let"; SList [SList [SNum 1; SNum 2]];
                                 Id "a"])
                 (initial_env H)) = Some 1 /\
  depth_after (eval H 10 (SList [SList [Id "lambda"; SList [Id "x"]; Id "x"];
                                 SNum 1])
                 (initial_env H)) = Some 1.
Proof.
  split; [|split].
  - intros ev params body args env Hne.
    exists (enter_scope env), (ArityExact (length params) (length args)).
    split; [|reflexivity].
    unfold eval_func. cbn zeta.
    destruct (Nat.eqb_spec (length params) (length args)); [lia|].
    reflexivity.
  - intros ev params body args env env' e Heq Hbody.
    unfold eval_func. cbn zeta.
    rewrite Heq, Nat.eqb_refl. cbn [negb].
    rewrite <- Heq, bind_params_all by lia.
    rewrite !take_ge by lia. cbn. by rewrite Hbody.
  - apply scope_depths_on_error_paths.
Qed.

(* ================================================================== *)
(** * The reader and the printer *)

Lemma skip_whitespace_len (cs : string) :
  String.length (skip_whitespace cs) <= String.length cs.
Proof.
  induction cs as [|c cs IH]; cbn [skip_whitespace String.length]; [lia|].
  destruct (is_whitespace c); cbn; lia.
Qed.

Lemma skip_to_linebreak_len (cs : string) :
  String.length (skip_to_linebreak cs) <= String.length cs.
Proof. induction cs as [|c cs IH]; cbn; [lia|]. destruct (Ascii.eqb c newline); lia. Qed.

Lemma read_atom_loop_len (buf cs : string) :
  String.length (snd (read_atom_loop buf cs)) <= String.length cs.
Proof.
  revert buf. induction cs as [|c cs IH]; intros buf;
    cbn [read_atom_loop snd String.length]; [lia|].
  destruct (is_valid_atom c), (is_whitespace c); cbn; try lia.
  specialize (IH (push_char buf c)). lia.
Qed.

Lemma parse_str_loop_len (buf cs : string) e r :
  parse_str_loop buf cs = POk e r -> String.length r < String.length cs.
Proof.
  remember (String.length cs) as n eqn:Hn. revert buf cs Hn.
  induction n as [n IH] using lt_wf_ind; intros buf cs Hn.
  destruct cs as [|c cs]; cbn; [discriminate|]. cbn in Hn.
  destruct (Ascii.eqb c dquote); [intros [= _ <-]; lia|].
  destruct (Ascii.eqb c backslash).
  - destruct cs as [|d cs'].
    + cbn. discriminate.
    + destruct (escape_char d); [|discriminate].
      intros Hp. cbn in Hn. specialize (IH (String.length cs') ltac:(lia) _ _ eq_refl Hp). lia.
  - intros Hp. specialize (IH (String.length cs) ltac:(lia) _ _ eq_refl Hp). lia.
Qed.

Section ReaderFacts.
Variable parse_f64 : string -> option float.

Lemma parse_atom_len (cs : string) e r :
  parse_atom parse_f64 cs = POk e r -> String.length r < String.length cs.
Proof.
  unfold parse_atom, read_atom.
  destruct cs as [|c cs]; [cbn; discriminate|].
  cbn [read_atom_loop].
  destruct (is_valid_atom c) eqn:Ha, (is_whitespace c) eqn:Hw; cbn; try discriminate.
  pose proof (read_atom_loop_len (push_char "" c) cs) as Hl.
  destruct (read_atom_loop (push_char "" c) cs) as [buf rest] eqn:Hr. cbn in Hl |- *.
  repeat case_match; intros Hp; inversion Hp; subst; lia.
Qed.

Lemma parse_consumes :
  (forall n cs e r, parse parse_f64 n cs = POk e r ->
     String.length r < String.length cs) /\
  (forall n close buf cs e r, parse_list parse_f64 n close buf cs = POk e r ->
     String.length r < String.length cs).
Proof.
  cut (forall n,
    (forall cs e r, parse parse_f64 n cs = POk e r ->
       String.length r < String.length cs) /\
    (forall close buf cs e r, parse_list parse_f64 n close buf cs = POk e r ->
       String.length r < String.length cs)).
  { intros Hc. split; intros n; apply (Hc n). }
  induction n as [|f [IHp IHl]]; [split; cbn; discriminate|].
  split.
  - intros cs e r. cbn.
    pose proof (skip_whitespace_len cs) as Hs.
    destruct (skip_whitespace cs) as [|c rest] eqn:Hsw; [discriminate|].
    cbn in Hs.
    destruct (Ascii.eqb c ";").
    { intros Hp. apply IHp in Hp. pose proof (skip_to_linebreak_len rest). lia. }
    destruct (Ascii.eqb c "'").
    { destruct (parse parse_f64 f rest) eqn:Hp; intros Hq; inversion Hq; subst.
      apply IHp in Hp. lia. }
    destruct (Ascii.eqb c "(").
    { intros Hp. apply IHl in Hp. lia. }
    destruct (Ascii.eqb c "[").
    { intros Hp. apply IHl in Hp. lia. }
    destruct (Ascii.eqb c dquote).
    { intros Hp. apply parse_str_loop_len in Hp. lia. }
    intros Hp. apply parse_atom_len in Hp. cbn in Hp. lia.
  - intros close buf cs e r. cbn.
    destruct cs as [|c rest]; [discriminate|].
    destruct (is_whitespace c).
    { intros Hp. apply IHl in Hp. cbn. lia. }
    destruct (Ascii.eqb c close).
    { intros [= _ <-]. cbn. lia. }
    destruct (parse parse_f64 f (String c rest)) as [e1 r1| |] eqn:Hp;
      try discriminate.
    intros Hq. apply IHl in Hq. apply IHp in Hp. lia.
Qed.

Lemma parse_mono :
  forall n,
  (forall cs o m, parse parse_f64 n cs = o -> o <> PFuel -> n <= m ->
     parse parse_f64 m cs = o) /\
  (forall close buf cs o m, parse_list parse_f64 n close buf cs = o ->
     o <> PFuel -> n <= m -> parse_list parse_f64 m close buf cs = o).
Proof.
  induction n as [|f [IHp IHl]].
  { split; intros; subst; cbn in *; congruence. }
  split.
  - intros cs o m Hp Ho Hm. destruct m as [|m]; [lia|].
    assert (Hfm : f <= m) by lia. cbn in Hp |- *.
    destruct (skip_whitespace cs) as [|c rest]; [exact Hp|].
    destruct (Ascii.eqb c ";"); [by eapply IHp|].
    destruct (Ascii.eqb c "'").
    { destruct (parse parse_f64 f rest) eqn:Hq; subst o.
      - by rewrite (IHp _ _ m Hq ltac:(discriminate) Hfm).
      - by rewrite (IHp _ _ m Hq ltac:(discriminate) Hfm).
      - congruence. }
    destruct (Ascii.eqb c "("); [by eapply IHl|].
    destruct (Ascii.eqb c "["); [by eapply IHl|].
    exact Hp.
  - intros close buf cs o m Hp Ho Hm. destruct m as [|m]; [lia|].
    assert (Hfm : f <= m) by lia. cbn in Hp |- *.
    destruct cs as [|c rest]; [exact Hp|].
    destruct (is_whitespace c); [by eapply IHl|].
    destruct (Ascii.eqb c close); [exact Hp|].
    destruct (parse parse_f64 f (String c rest)) eqn:Hq; subst o.
    + rewrite (IHp _ _ m Hq ltac:(discriminate) Hfm). by eapply IHl.
    + by rewrite (IHp _ _ m Hq ltac:(discriminate) Hfm).
    + congruence.
Qed.

Lemma parse_enough_fuel :
  forall n,
  (forall cs, 2 * String.length cs + 1 <= n -> parse parse_f64 n cs <> PFuel) /\
  (forall close buf cs, 2 * String.length cs + 2 <= n ->
     parse_list parse_f64 n close buf cs <> PFuel).
Proof.
  induction n as [|f [IHp IHl]]; [split; intros; lia|].
  split.
  - intros cs Hn. cbn.
    pose proof (skip_whitespace_len cs) as Hs.
    destruct (skip_whitespace cs) as [|c rest]; [discriminate|].
    cbn in Hs.
    destruct (Ascii.eqb c ";").
    { apply IHp. pose proof (skip_to_linebreak_len rest). lia. }
    destruct (Ascii.eqb c "'").
    { pose proof (IHp rest ltac:(lia)).
      destruct (parse parse_f64 f rest); congruence. }
    destruct (Ascii.eqb c "("); [apply IHl; lia|].
    destruct (Ascii.eqb c "["); [apply IHl; lia|].
    destruct (Ascii.eqb c dquote).
    { clear. revert rest. generalize "".
      enough (forall n cs s, String.length cs <= n -> parse_str_loop s cs <> PFuel)
        by eauto.
      induction n as [|n IH]; intros [|c cs] s Hl; cbn in *; try lia;
        try discriminate.
      repeat case_match; try discriminate; apply IH; cbn in *; lia. }
    unfold parse_atom. repeat case_match; discriminate.
  - intros close buf cs Hn. cbn.
    destruct cs as [|c rest]; [discriminate|]. cbn in Hn.
    destruct (is_whitespace c); [apply IHl; lia|].
    destruct (Ascii.eqb c close); [discriminate|].
    pose proof (IHp (String c rest) ltac:(cbn; lia)) as Hp.
    destruct (parse parse_f64 f (String c rest)) as [e1 r1| |] eqn:Hq;
      try congruence.
    apply IHl. apply (proj1 parse_consumes) in Hq. cbn in Hq. lia.
Qed.

Lemma parse_expr_of (n : nat) (cs : string) (o : parse_result) :
  parse parse_f64 n cs = o -> o <> PFuel -> parse_expr parse_f64 cs = o.
Proof.
  intros Hp Ho. unfold parse_expr, parse_fuel.
  pose proof (proj1 (parse_enough_fuel (S (2 * String.length cs))) cs ltac:(lia))
    as Hf.
  rewrite <- (proj1 (parse_mono _) cs _ (Nat.max n (S (2 * String.length cs)))
               eq_refl Hf ltac:(lia)).
  apply (proj1 (parse_mono n)); auto; lia.
Qed.

Lemma parse_expr_not_fuel (cs : string) : parse_expr parse_f64 cs <> PFuel.
Proof. apply (parse_enough_fuel _). unfold parse_fuel. lia. Qed.

End ReaderFacts.

Lemma string_app_assoc (x y z : string) : (x ++ y) ++ z = x ++ (y ++ z).
Proof. induction x; rewrite ?string_app_nil, ?string_app_cons; congruence. Qed.

Lemma string_app_nil_r (x : string) : x ++ "" = x.
Proof. induction x; rewrite ?string_app_nil, ?string_app_cons; congruence. Qed.
Lemma list_ascii_of_string_app (x y : string) :
  String.list_ascii_of_string (x ++ y)
  = (String.list_ascii_of_string x ++ String.list_ascii_of_string y)%list.
Proof. induction x; rewrite ?string_app_nil, ?string_app_cons; cbn; congruence. Qed.

Lemma ident_char_facts (c : ascii) :
  is_valid_ident c = true ->
  is_ascii c && is_valid_atom c && negb (is_whitespace c)
  && negb (Ascii.eqb c ";") && negb (Ascii.eqb c "'")
  && negb (Ascii.eqb c "(") && negb (Ascii.eqb c "[")
  && negb (Ascii.eqb c dquote) && negb (Ascii.eqb c ")") = true.
Proof.
  destruct c as [[] [] [] [] [] [] [] []]; vm_compute; intros;
    first [reflexivity|discriminate].
Qed.

Lemma utf8_of_ascii (c : ascii) :
  is_ascii c = true -> utf8_of_char c = String c EmptyString.
Proof. unfold utf8_of_char, is_ascii. intros ->. reflexivity. Qed.

Lemma read_atom_loop_app (t buf r : string) :
  forallb is_valid_ident (String.list_ascii_of_string t) = true ->
  delimited r = true ->
  read_atom_loop buf (t ++ r) = (buf ++ t, r).
Proof.
  revert buf. induction t as [|c t IH]; intros buf Ht Hr.
  - rewrite string_app_nil, string_app_nil_r.
    destruct r as [|c r]; [reflexivity|]. cbn in Hr |- *.
    destruct (is_valid_atom c), (is_whitespace c); cbn in Hr; try discriminate;
      reflexivity.
  - cbn in Ht. apply andb_true_iff in Ht as [Hc Ht].
    pose proof (ident_char_facts c Hc) as Hf.
    repeat (apply andb_true_iff in Hf as [Hf ?]).
    rewrite string_app_cons. cbn [read_atom_loop].
    destruct (is_valid_atom c); [|discriminate].
    destruct (is_whitespace c); [discriminate|]. cbn.
    rewrite IH by done. unfold push_char. rewrite utf8_of_ascii by done.
    rewrite string_app_assoc. reflexivity.
Qed.

Lemma parse_str_loop_app (buf s r : string) :
  str_reads_back s = true ->
  parse_str_loop buf (s ++ String dquote r) = POk (SStr (buf ++ s)) r.
Proof.
  revert buf. induction s as [|c s IH]; intros buf Hs.
  - rewrite string_app_nil, string_app_nil_r. cbn. reflexivity.
  - cbn in Hs. apply andb_true_iff in Hs as [Hc Hs].
    apply andb_true_iff in Hc as [Hc Hb]. apply andb_true_iff in Hc as [Ha Hq].
    rewrite string_app_cons. cbn [parse_str_loop].
    apply negb_true_iff in Hq, Hb. rewrite Hq, Hb.
    rewrite IH by done. unfold push_char. rewrite utf8_of_ascii by done.
    rewrite string_app_assoc. reflexivity.
Qed.

Section RoundTrip.
Variable parse_f64 : string -> option float.
Variable show_f64 : float -> string.

Lemma display_list_eq (es : list sexpr) :
  display show_f64 (SList es) = "(" ++ display_items show_f64 es ++ ")".
Proof. reflexivity. Qed.

Lemma read_atom_app (t r : string) :
  forallb is_valid_ident (String.list_ascii_of_string t) = true ->
  delimited r = true -> String.eqb t "" = false ->
  read_atom (t ++ r) = (Some t, r).
Proof.
  intros Ht Hr Hne. unfold read_atom.
  rewrite read_atom_loop_app by done. rewrite string_app_nil, Hne. reflexivity.
Qed.

Lemma ends_with_ellipsis_app (s : string) :
  ends_with_ellipsis (s ++ ELLIPSIS) = true.
Proof.
  unfold ends_with_ellipsis. rewrite string_length_app. cbn [String.length ELLIPSIS].
  replace (String.length s + 3 - 3) with (String.length s) by lia.
  rewrite substring_app_prefix. apply andb_true_iff; split.
  - apply Nat.leb_le. lia.
  - reflexivity.
Qed.

Lemma parse_ident_app (s : string) (v : bool) (r : string) :
  ident_reads_back parse_f64 s v = true -> delimited r = true ->
  parse_atom parse_f64 (display show_f64 (SIdent s v) ++ r) = POk (SIdent s v) r.
Proof.
  unfold ident_reads_back. cbn [display].
  set (t := s ++ (if v then ELLIPSIS else "")).
  intros Hs Hr. repeat (apply andb_true_iff in Hs as [Hs ?]).
  apply negb_true_iff in Hs.
  assert (Ht : forallb is_valid_ident (String.list_ascii_of_string t) = true).
  { subst t. destruct v.
    - rewrite list_ascii_of_string_app, forallb_app. 
      apply andb_true_iff. split; [done|reflexivity].
    - rewrite string_app_nil_r. done. }
  assert (Hne : String.eqb t "" = false).
  { subst t. destruct s; [discriminate|]. reflexivity. }
  change (if v then "..." else "") with (if v then ELLIPSIS else "").
  fold t. unfold parse_atom. rewrite read_atom_app by done.
  repeat match goal with
  | H : negb _ = true |- _ => apply negb_true_iff in H
  | H : (_ || _) = false |- _ => apply orb_false_iff in H as [? ?]
  end.
  repeat match goal with H : String.eqb t _ = false |- _ => rewrite H end.
  cbn [orb].
  destruct (parse_f64 t); [discriminate|]. rewrite Ht.
  subst t. destruct v.
  - rewrite ends_with_ellipsis_app. rewrite string_length_app.
    cbn [String.length ELLIPSIS]. replace (String.length s + 3 - 3) with (String.length s) by lia.
    rewrite substring_app_front, Hs. reflexivity.
  - rewrite string_app_nil_r. cbn [orb] in *.
    match goal with H : negb (ends_with_ellipsis s) = true |- _ =>
      apply negb_true_iff in H; rewrite H end.
    rewrite Hs. reflexivity.
Qed.

Lemma display_head (e : sexpr) :
  reads_back parse_f64 e = true ->
  exists c t, display show_f64 e = String c t /\ is_whitespace c = false
    /\ Ascii.eqb c ")" = false.
Proof.
  destruct e as [s|n|b|s v|es|e'|]; cbn [reads_back]; intros He; try discriminate.
  - eexists _, _. split; [reflexivity|]. split; reflexivity.
  - destruct b; eexists _, _; (split; [reflexivity|]); split; reflexivity.
  - unfold ident_reads_back in He. repeat (apply andb_true_iff in He as [He ?]).
    destruct s as [|c s]; [discriminate|].
    match goal with H : forallb is_valid_ident _ = true |- _ =>
      cbn in H; apply andb_true_iff in H as [Hc _] end.
    pose proof (ident_char_facts c Hc) as Hf.
    repeat (apply andb_true_iff in Hf as [Hf ?]).
    cbn [display]. rewrite string_app_cons. eexists _, _. split; [reflexivity|].
    split; apply negb_true_iff; assumption.
  - rewrite display_list_eq. eexists _, _. split; [reflexivity|]. split; reflexivity.
  - eexists _, _. split; [reflexivity|]. split; reflexivity.
Qed.

Lemma parse_lift (n m : nat) (cs : string) (o : parse_result) :
  parse parse_f64 n cs = o -> o <> PFuel -> n <= m -> parse parse_f64 m cs = o.
Proof. intros. eapply (proj1 (parse_mono parse_f64 n)); eauto. Qed.

Lemma parse_list_lift (n m : nat) close buf (cs : string) (o : parse_result) :
  parse_list parse_f64 n close buf cs = o -> o <> PFuel -> n <= m ->
  parse_list parse_f64 m close buf cs = o.
Proof. intros. eapply (proj2 (parse_mono parse_f64 n)); eauto. Qed.

Lemma display_reads_back_fuel (e : sexpr) :
  reads_back parse_f64 e = true -> forall r, delimited r = true ->
  exists n, parse parse_f64 n (display show_f64 e ++ r) = POk e r.
Proof.
  induction e as [s|n|b|s v|es IH|e' IH|] using sexpr_nested_ind;
    cbn [reads_back]; intros He r Hr; try discriminate.
  - exists 1. cbn [display]. rewrite string_app_cons. cbn.
    rewrite string_app_assoc, string_app_cons, string_app_nil.
    rewrite parse_str_loop_app by done. reflexivity.
  - exists 1. destruct b.
    + cbn [display]. rewrite !string_app_cons, string_app_nil.
      cbn -[parse_atom]. unfold parse_atom.
      change (String "t" (String "r" (String "u" (String "e" r)))) with ("true" ++ r).
      rewrite read_atom_app by done. reflexivity.
    + cbn [display]. rewrite !string_app_cons, string_app_nil.
      cbn -[parse_atom]. unfold parse_atom.
      change (String "f" (String "a" (String "l" (String "s" (String "e" r)))))
        with ("false" ++ r).
      rewrite read_atom_app by done. reflexivity.
  - exists 1. destruct (display_head (SIdent s v) He) as (c & t & Hd & Hw & _).
    pose proof (parse_ident_app s v r He Hr) as Hp.
    rewrite Hd in Hp |- *. rewrite string_app_cons in Hp |- *.
    cbn. rewrite Hw.
    unfold ident_reads_back in He. repeat (apply andb_true_iff in He as [He ?]).
    destruct s as [|c0 s]; [discriminate|].
    cbn [display] in Hd. rewrite string_app_cons in Hd. injection Hd as <- _.
    match goal with H : forallb is_valid_ident _ = true |- _ =>
      cbn in H; apply andb_true_iff in H as [Hc _] end.
    pose proof (ident_char_facts c0 Hc) as Hf.
    repeat (apply andb_true_iff in Hf as [Hf ?]).
    repeat match goal with H : negb _ = true |- _ => apply negb_true_iff in H; rewrite H end.
    exact Hp.
  - (* lists *)
    assert (Hl : forall buf, exists n,
      parse_list parse_f64 n ")" buf (display_items show_f64 es ++ String ")" r)
      = POk (SList (buf ++ es)) r).
    { clear Hr. induction es as [|x es IHes]; intros buf.
      - exists 1. cbn. rewrite app_nil_r. reflexivity.
      - apply Forall_cons in IH as [IHx IHes'].
        cbn in He. apply andb_true_iff in He as [Hx Hes].
        destruct (display_head x Hx) as (c & t & Hd & Hw & Hc).
        destruct es as [|y es].
        + destruct (IHx Hx (String ")" r) eq_refl) as [n1 Hp1].
          exists (S (S n1)). cbn [display_items].
          rewrite Hd, string_app_cons. cbn [parse_list]. rewrite Hw, Hc.
          rewrite <- string_app_cons, <- Hd.
          rewrite (parse_lift n1 (S n1) _ _ Hp1) by (discriminate || lia).
          reflexivity.
        + destruct (IHx Hx (" " ++ display_items show_f64 (y :: es) ++ String ")" r)
                      eq_refl) as [n1 Hp1].
          destruct (IHes IHes' Hes (buf ++ [x])%list) as [n2 Hp2].
          exists (S (S (Nat.max n1 n2))).
          change (display_items show_f64 (x :: y :: es))
            with (display show_f64 x ++ " " ++ display_items show_f64 (y :: es)).
          rewrite !string_app_assoc.
          rewrite Hd, string_app_cons. cbn [parse_list]. rewrite Hw, Hc.
          rewrite <- string_app_cons, <- Hd.
          rewrite (parse_lift n1 (S (Nat.max n1 n2)) _ _ Hp1) by (discriminate || lia).
          cbn [parse_list]. cbn [is_whitespace nat_of_ascii].
          change (" " ++ ?z) with (String " " z). cbn -[display_items parse_list].
          rewrite (parse_list_lift n2 (Nat.max n1 n2) _ _ _ _ Hp2)
            by (discriminate || lia).
          rewrite <- app_assoc. reflexivity. }
    destruct (Hl []) as [n Hn]. exists (S n).
    rewrite display_list_eq, !string_app_assoc, string_app_cons, string_app_nil.
    cbn [parse skip_whitespace]. cbn -[parse_list display_items].
    rewrite string_app_cons, string_app_nil. exact Hn.
  - destruct (IH He r Hr) as [n Hn]. exists (S n).
    cbn [display]. rewrite string_app_assoc, string_app_cons, string_app_nil.
    cbn [parse skip_whitespace is_whitespace]. cbn -[parse display].
    rewrite Hn. reflexivity.
Qed.

Lemma parse_list_items (es : list sexpr) (buf : list sexpr) (tl : string)
    (o : parse_result) (n2 : nat) :
  forallb (reads_back parse_f64) es = true -> delimited tl = true ->
  parse_list parse_f64 n2 ")" (buf ++ es) tl = o -> o <> PFuel ->
  exists n, parse_list parse_f64 n ")" buf (display_items show_f64 es ++ tl) = o.
Proof.
  revert buf. induction es as [|x es IHes]; intros buf Hes Htl Hp Ho.
  - exists n2. rewrite app_nil_r in Hp. exact Hp.
  - cbn in Hes. apply andb_true_iff in Hes as [Hx Hes].
    destruct (display_head x Hx) as (c & t & Hd & Hw & Hc).
    destruct es as [|y es].
    + destruct (display_reads_back_fuel x Hx tl Htl) as [n1 Hp1].
      exists (S (Nat.max n1 n2)). cbn [display_items].
      rewrite Hd, string_app_cons. cbn [parse_list]. rewrite Hw, Hc.
      rewrite <- string_app_cons, <- Hd.
      rewrite (parse_lift n1 (Nat.max n1 n2) _ _ Hp1) by (discriminate || lia).
      apply (parse_list_lift n2); auto; lia.
    + destruct (display_reads_back_fuel x Hx
                  (" " ++ display_items show_f64 (y :: es) ++ tl) eq_refl)
        as [n1 Hp1].
      replace (buf ++ x :: y :: es)%list with ((buf ++ [x]) ++ y :: es)%list
        in Hp by (rewrite <- app_assoc; reflexivity).
      destruct (IHes (buf ++ [x])%list Hes Htl Hp Ho) as [n3 Hp3].
      exists (S (S (Nat.max n1 n3))).
      change (display_items show_f64 (x :: y :: es))
        with (display show_f64 x ++ " " ++ display_items show_f64 (y :: es)).
      rewrite !string_app_assoc.
      rewrite Hd, string_app_cons. cbn [parse_list]. rewrite Hw, Hc.
      rewrite <- string_app_cons, <- Hd.
      rewrite (parse_lift n1 (S (Nat.max n1 n3)) _ _ Hp1) by (discriminate || lia).
      change (" " ++ ?z) with (String " " z). cbn [parse_list is_whitespace].
      apply (parse_list_lift n3); auto; lia.
Qed.

Lemma parse_expr_ws (c : ascii) (cs : string) :
  is_whitespace c = true ->
  parse_expr parse_f64 (String c cs) = parse_expr parse_f64 cs.
Proof.
  intros Hw. symmetry. apply (parse_expr_of parse_f64 (parse_fuel (String c cs))).
  - unfold parse_expr, parse_fuel. cbn [parse skip_whitespace]. rewrite Hw.
    reflexivity.
  - apply (parse_enough_fuel parse_f64). unfold parse_fuel. cbn. lia.
Qed.

Lemma parse_all_loop_fuel (cs : string) :
  forall n m acc, String.length cs < n -> String.length cs < m ->
  parse_all_loop parse_f64 n acc cs = parse_all_loop parse_f64 m acc cs.
Proof.
  remember (String.length cs) as k eqn:Hk. revert cs Hk.
  induction k as [k IH] using lt_wf_ind; intros cs Hk n m acc Hn Hm.
  destruct n as [|n]; [lia|]. destruct m as [|m]; [lia|]. cbn [parse_all_loop].
  destruct (parse_expr parse_f64 cs) as [e r| |] eqn:Hp; try reflexivity.
  unfold parse_expr in Hp. apply (proj1 (parse_consumes parse_f64)) in Hp.
  apply (IH (String.length r)); lia.
Qed.

Lemma parse_all_loop_ws (c : ascii) (cs : string) n acc :
  is_whitespace c = true ->
  parse_all_loop parse_f64 (S n) acc (String c cs)
  = parse_all_loop parse_f64 (S n) acc cs.
Proof. intros Hw. cbn [parse_all_loop]. rewrite parse_expr_ws by done. reflexivity. Qed.

Lemma parse_expr_eof : parse_expr parse_f64 "" = PErr "EOF".
Proof. reflexivity. Qed.

Lemma parse_all_same_first (x y : string) :
  parse_expr parse_f64 x = parse_expr parse_f64 y ->
  String.length y <= String.length x ->
  parse_all parse_f64 x = parse_all parse_f64 y.
Proof.
  intros Heq Hl. unfold parse_all. cbn [parse_all_loop]. rewrite Heq.
  destruct (parse_expr parse_f64 y) as [e r| |] eqn:Hp; try reflexivity.
  unfold parse_expr in Hp. apply (proj1 (parse_consumes parse_f64)) in Hp.
  apply parse_all_loop_fuel; lia.
Qed.

Lemma skip_to_linebreak_app (t cs : string) :
  no_newline t = true -> skip_to_linebreak (t ++ String newline cs) = cs.
Proof.
  induction t as [|c t IH]; intros Ht.
  - reflexivity.
  - cbn in Ht. apply andb_true_iff in Ht as [Hc Ht].
    rewrite string_app_cons. cbn [skip_to_linebreak].
    apply negb_true_iff in Hc. rewrite Hc. auto.
Qed.

Lemma skip_to_linebreak_none (t : string) :
  no_newline t = true -> skip_to_linebreak t = "".
Proof.
  induction t as [|c t IH]; intros Ht; [reflexivity|].
  cbn in Ht. apply andb_true_iff in Ht as [Hc Ht].
  cbn [skip_to_linebreak]. apply negb_true_iff in Hc. rewrite Hc. auto.
Qed.

Lemma parse_all_of_err (cs : string) (n : nat) (msg : string)
    (res : parse_all_result) :
  parse parse_f64 n cs = PErr msg ->
  (if String.eqb msg "EOF" then AOk [] else AErr msg) = res ->
  parse_all parse_f64 cs = res.
Proof.
  intros Hp <-. unfold parse_all. cbn [parse_all_loop].
  rewrite (parse_expr_of parse_f64 n cs _ Hp) by discriminate. reflexivity.
Qed.

(** X1: Printing an expression with Display and reading the text back with
    the parser gives the same expression, with the rest of the input left
    unread. This holds for expressions with no number or nil inside, whose
    strings are ASCII without a quote or backslash and whose identifiers are
    valid, non-empty and not read as a boolean or a number, when the rest
    starts with whitespace or a bracket or is empty. *)
Theorem display_parse_round_trip (e : sexpr) (r : string)
    (He : reads_back parse_f64 e = true) (Hr : delimited r = true) :
  parse_expr parse_f64 (display show_f64 e ++ r) = POk e r.
Proof.
  destruct (display_reads_back_fuel e He r Hr) as [n Hn].
  exact (parse_expr_of parse_f64 n _ _ Hn ltac:(discriminate)).
Qed.

Lemma parse_all_loop_items (es acc : list sexpr) (n : nat) :
  forallb (reads_back parse_f64) es = true ->
  String.length (display_items show_f64 es) < n ->
  parse_all_loop parse_f64 n acc (display_items show_f64 es) = AOk (acc ++ es).
Proof.
  revert acc n. induction es as [|x es IH]; intros acc n Hes Hn.
  - destruct n as [|n]; [cbn in Hn; lia|]. cbn. rewrite app_nil_r. reflexivity.
  - cbn in Hes. apply andb_true_iff in Hes as [Hx Hes].
    destruct (display_head x Hx) as (c & t & Hd & _).
    destruct n as [|n]; [lia|].
    destruct es as [|y es].
    + cbn [display_items] in Hn |- *. cbn [parse_all_loop].
      pose proof (display_parse_round_trip x "" Hx eq_refl) as Hp.
      rewrite string_app_nil_r in Hp. rewrite Hp.
      rewrite Hd in Hn. destruct n as [|n]; [cbn in Hn; lia|].
      cbn [parse_all_loop]. rewrite parse_expr_eof. reflexivity.
    + change (display_items show_f64 (x :: y :: es))
        with (display show_f64 x ++ " " ++ display_items show_f64 (y :: es)) in Hn |- *.
      cbn [parse_all_loop].
      rewrite (display_parse_round_trip x (" " ++ display_items show_f64 (y :: es))
                 Hx eq_refl).
      rewrite !string_length_app in Hn. rewrite Hd in Hn. cbn [String.length] in Hn.
      destruct n as [|n]; [lia|].
      change (" " ++ ?z) with (String " " z).
      rewrite parse_all_loop_ws by reflexivity.
      rewrite IH by (done || lia). rewrite <- app_assoc. reflexivity.
Qed.

(** X2: parse_all on the Display texts of such readable expressions,
    separated by single spaces, returns exactly that list of expressions. *)
Theorem parse_all_display_items (es : list sexpr)
    (Hes : forallb (reads_back parse_f64) es = true) :
  parse_all parse_f64 (display_items show_f64 es) = AOk es.
Proof. unfold parse_all. apply parse_all_loop_items; [done|lia]. Qed.

(** X3: parse_all gives the same result with or without a leading whitespace
    character, and with or without a leading ';' comment that runs to and
    includes the next newline. *)
Theorem parse_skips_blanks_and_comments (c : ascii) (t cs : string) :
  (is_whitespace c = true ->
   parse_all parse_f64 (String c cs) = parse_all parse_f64 cs) /\
  (no_newline t = true ->
   parse_all parse_f64 (String ";" (t ++ String newline cs))
   = parse_all parse_f64 cs).
Proof.
  split.
  - intros Hw. apply parse_all_same_first; [by apply parse_expr_ws|cbn; lia].
  - intros Ht. apply parse_all_same_first.
    + symmetry. apply (parse_expr_of parse_f64 (2 * String.length
        (String ";" (t ++ String newline cs)))).
      * unfold parse_expr, parse_fuel. cbn [parse skip_whitespace is_whitespace].
        cbn -[parse skip_to_linebreak]. rewrite skip_to_linebreak_app by done.
        reflexivity.
      * apply parse_expr_not_fuel.
    + cbn. rewrite string_length_app. cbn. lia.
Qed.

(** X4: A '(' followed by readable items and then the end of input makes
    parse_all fail with 'Unexpected EOF before end of list.'. If the open
    list ends instead in a lone quote or in a comment with no newline,
    parse_all succeeds with no expressions: the inner 'EOF' error is taken
    for the normal end of input and the unclosed list is dropped. *)
Theorem parse_all_unclosed_list (es : list sexpr) (t : string)
    (Hes : forallb (reads_back parse_f64) es = true) :
  parse_all parse_f64 ("(" ++ display_items show_f64 es)
    = AErr "Unexpected EOF before end of list." /\
  parse_all parse_f64 ("(" ++ display_items show_f64 es ++ " '") = AOk [] /\
  (no_newline t = true ->
   parse_all parse_f64 ("(" ++ display_items show_f64 es ++ " ;" ++ t) = AOk []).
Proof.
  split; [|split].
  - destruct (parse_list_items es [] "" (PErr "Unexpected EOF before end of list.")
                1 Hes eq_refl eq_refl ltac:(discriminate)) as [n Hn].
    rewrite string_app_nil_r in Hn.
    apply (parse_all_of_err _ (S n) "Unexpected EOF before end of list."); [|reflexivity].
    rewrite string_app_cons, string_app_nil. exact Hn.
  - destruct (parse_list_items es [] " '" (PErr "EOF") 4 Hes eq_refl eq_refl
                ltac:(discriminate)) as [n Hn].
    apply (parse_all_of_err _ (S n) "EOF"); [|reflexivity].
    rewrite string_app_cons, string_app_nil. exact Hn.
  - intros Ht.
    assert (Hq : parse_list parse_f64 4 ")" ([] ++ es) (" ;" ++ t) = PErr "EOF").
    { change (" ;" ++ t) with (String " " (String ";" t)).
      cbn [parse_list is_whitespace]. cbn -[skip_to_linebreak].
      rewrite skip_to_linebreak_none by done. reflexivity. }
    destruct (parse_list_items es [] (" ;" ++ t) _ 4 Hes eq_refl Hq
                ltac:(discriminate)) as [n Hn].
    apply (parse_all_of_err _ (S n) "EOF"); [|reflexivity].
    rewrite string_app_cons, string_app_nil. exact Hn.
Qed.

(** X5: A list opened with '(' and closed with ']' makes parse_all fail with
    'No atom.': the ']' is handed to the atom reader instead of being
    reported as a mismatched bracket. *)
Theorem parse_all_mismatched_close (es : list sexpr)
    (Hes : forallb (reads_back parse_f64) es = true) :
  parse_all parse_f64 ("(" ++ display_items show_f64 es ++ "]") = AErr "No atom.".
Proof.
  destruct (parse_list_items es [] "]" (PErr "No atom.") 3 Hes eq_refl eq_refl
              ltac:(discriminate)) as [n Hn].
  apply (parse_all_of_err _ (S n) "No atom."); [|reflexivity].
  rewrite string_app_cons, string_app_nil. exact Hn.
Qed.

Lemma parse_str_loop_bytes (buf s r : string) :
  forallb (fun c => negb (Ascii.eqb c dquote) && negb (Ascii.eqb c backslash))
    (String.list_ascii_of_string s) = true ->
  parse_str_loop buf (s ++ String dquote r) = POk (SStr (buf ++ latin1_to_utf8 s)) r.
Proof.
  revert buf. induction s as [|c s IH]; intros buf Hs.
  - rewrite string_app_nil, string_app_nil_r. reflexivity.
  - cbn in Hs. apply andb_true_iff in Hs as [Hc Hs].
    apply andb_true_iff in Hc as [Hq Hb].
    rewrite string_app_cons. cbn [parse_str_loop].
    apply negb_true_iff in Hq, Hb. rewrite Hq, Hb.
    rewrite IH by done. unfold push_char. cbn [latin1_to_utf8].
    rewrite string_app_assoc. reflexivity.
Qed.

Lemma latin1_to_utf8_length (s : string) :
  String.length (latin1_to_utf8 s)
  = String.length s
    + length (List.filter (fun c => negb (is_ascii c)) (String.list_ascii_of_string s)).
Proof.
  induction s as [|c s IH]; [reflexivity|].
  cbn [latin1_to_utf8 String.list_ascii_of_string]. rewrite string_length_app, IH.
  unfold utf8_of_char. cbn [List.filter]. unfold is_ascii at 2.
  destruct (N.ltb (N_of_ascii c) 128); cbn; lia.
Qed.

(** X6: A string literal without escapes parses to the UTF-8 encoding of its
    bytes, each byte read as the char of the same number. So every non-ASCII
    byte becomes two bytes, and the parsed string is longer than the source
    text by the count of non-ASCII bytes. *)
Theorem string_literal_recoded (s r : string)
    (Hs : forallb (fun c => negb (Ascii.eqb c dquote) && negb (Ascii.eqb c backslash))
            (String.list_ascii_of_string s) = true) :
  parse_expr parse_f64 (String dquote (s ++ String dquote r))
    = POk (SStr (latin1_to_utf8 s)) r /\
  String.length (latin1_to_utf8 s)
    = String.length s
      + length (List.filter (fun c => negb (is_ascii c)) (String.list_ascii_of_string s)).
Proof.
  split; [|apply latin1_to_utf8_length].
  apply (parse_expr_of parse_f64 1); [|discriminate].
  cbn [parse skip_whitespace is_whitespace]. cbn -[parse_str_loop].
  rewrite parse_str_loop_bytes by done. reflexivity.
Qed.

Lemma read_atom_loop_bytes (t buf r : string) :
  forallb (fun c => is_valid_atom c && negb (is_whitespace c))
    (String.list_ascii_of_string t) = true ->
  delimited r = true ->
  read_atom_loop buf (t ++ r) = (buf ++ latin1_to_utf8 t, r).
Proof.
  revert buf. induction t as [|c t IH]; intros buf Ht Hr.
  - rewrite string_app_nil, string_app_nil_r.
    destruct r as [|c r]; [reflexivity|]. cbn in Hr |- *.
    destruct (is_valid_atom c), (is_whitespace c); cbn in Hr; try discriminate;
      reflexivity.
  - cbn in Ht. apply andb_true_iff in Ht as [Hc Ht].
    apply andb_true_iff in Hc as [Ha Hw]. apply negb_true_iff in Hw.
    rewrite string_app_cons. cbn [read_atom_loop]. rewrite Ha, Hw. cbn.
    rewrite IH by done. unfold push_char. rewrite string_app_assoc. reflexivity.
Qed.

Lemma utf8_of_char_non_ascii (c : ascii) :
  is_ascii c = false ->
  existsb (fun d => negb (is_ascii d)) (String.list_ascii_of_string (utf8_of_char c))
  = true.
Proof.
  destruct c as [[] [] [] [] [] [] [] []]; vm_compute; intros;
    first [reflexivity|discriminate].
Qed.

Lemma latin1_to_utf8_non_ascii (t : string) :
  existsb (fun d => negb (is_ascii d)) (String.list_ascii_of_string t) = true ->
  existsb (fun d => negb (is_ascii d))
    (String.list_ascii_of_string (latin1_to_utf8 t)) = true.
Proof.
  induction t as [|c t IH]; [discriminate|].
  cbn [latin1_to_utf8]. rewrite list_ascii_of_string_app, existsb_app.
  cbn [String.list_ascii_of_string existsb]. intros H.
  apply orb_true_iff in H as [H|H].
  - apply orb_true_iff. left. apply utf8_of_char_non_ascii.
    destruct (is_ascii c); [discriminate|reflexivity].
  - apply orb_true_iff. right. auto.
Qed.

Lemma non_ascii_not_ident (l : list ascii) :
  existsb (fun d => negb (is_ascii d)) l = true -> forallb is_valid_ident l = false.
Proof.
  induction l as [|c l IH]; [discriminate|]. cbn. intros H.
  destruct (is_valid_ident c) eqn:Hc; [|reflexivity]. cbn.
  pose proof (ident_char_facts c Hc) as Hf.
  repeat (apply andb_true_iff in Hf as [Hf ?]).
  rewrite Hf in H. auto.
Qed.

Lemma non_ascii_neq (x y : string) :
  existsb (fun d => negb (is_ascii d)) (String.list_ascii_of_string x) = true ->
  existsb (fun d => negb (is_ascii d)) (String.list_ascii_of_string y) = false ->
  String.eqb x y = false.
Proof.
  intros Hx Hy. destruct (String.eqb_spec x y) as [->|]; [congruence|reflexivity].
Qed.

(** X7: An atom containing a non-ASCII byte that does not parse as a number
    is rejected with 'Invalid identifier <atom>.', where the atom is
    re-encoded byte by byte. For example the UTF-8 text of the Greek letter
    lambda is rejected, so the is_valid_ident arm for that letter never
    matches. *)
Theorem non_ascii_atom_rejected (c : ascii) (t r : string)
    (Hc : forallb (fun d => negb (Ascii.eqb c d)) [";"; "'"; "("; "["; dquote]%char
          = true)
    (Ht : forallb (fun d => is_valid_atom d && negb (is_whitespace d))
            (String.list_ascii_of_string (String c t)) = true)
    (Hna : existsb (fun d => negb (is_ascii d))
             (String.list_ascii_of_string (String c t)) = true)
    (Hf : parse_f64 (latin1_to_utf8 (String c t)) = None)
    (Hr : delimited r = true) :
  parse_expr parse_f64 (String c t ++ r)
  = PErr ("Invalid identifier " ++ latin1_to_utf8 (String c t) ++ ".").
Proof.
  apply (parse_expr_of parse_f64 1); [|discriminate].
  pose proof Ht as Ht'. cbn in Ht'. apply andb_true_iff in Ht' as [Hc0 _].
  apply andb_true_iff in Hc0 as [_ Hw]. apply negb_true_iff in Hw.
  rewrite string_app_cons. cbn [parse skip_whitespace]. rewrite Hw.
  repeat match goal with |- context [if Ascii.eqb c ?d then _ else _] =>
    let E := fresh in destruct (Ascii.eqb c d) eqn:E;
    [cbn [forallb] in Hc; rewrite E in Hc; cbn [negb andb] in Hc;
     rewrite ?andb_false_r in Hc; discriminate|]
  end.
  rewrite <- string_app_cons.
  unfold parse_atom, read_atom. rewrite read_atom_loop_bytes by done.
  rewrite string_app_nil.
  pose proof (latin1_to_utf8_non_ascii _ Hna) as Hu.
  rewrite !(non_ascii_neq _ _ Hu) by reflexivity. cbn [orb].
  rewrite Hf, (non_ascii_not_ident _ Hu). reflexivity.
Qed.

End RoundTrip.

Lemma display_parse_round_trip_witness :
  reads_back no_f64 (SList [SIdent "foo" false; SQuote (SStr "hi"); SBool true;
                            SIdent "xs" true]) = true /\
  delimited " rest" = true /\
  parse_expr no_f64 (display show_zero (SList [SIdent "foo" false; SQuote (SStr "hi");
                                              SBool true; SIdent "xs" true]) ++ " rest")
  = POk (SList [SIdent "foo" false; SQuote (SStr "hi"); SBool true; SIdent "xs" true])
        " rest".
Proof.
  split; [reflexivity|split; [reflexivity|]].
  apply display_parse_round_trip; reflexivity.
Defined.

Lemma parse_all_display_items_witness :
  forallb (reads_back no_f64) [SIdent "define" false; SList [SIdent "x" false; SStr "a b"];
                               SBool false] = true /\
  parse_all no_f64 (display_items show_zero
                      [SIdent "define" false; SList [SIdent "x" false; SStr "a b"];
                       SBool false])
  = AOk [SIdent "define" false; SList [SIdent "x" false; SStr "a b"]; SBool false].
Proof.
  split; [reflexivity|]. apply parse_all_display_items; reflexivity.
Defined.

Lemma parse_all_unclosed_list_witness :
  forallb (reads_back no_f64) [SIdent "a" false; SBool true] = true /\
  parse_all no_f64 ("(" ++ display_items show_zero [SIdent "a" false; SBool true])
    = AErr "Unexpected EOF before end of list.".
Proof.
  split; [reflexivity|].
  apply (parse_all_unclosed_list no_f64 show_zero _ " note"); reflexivity.
Defined.

Lemma parse_all_mismatched_close_witness :
  forallb (reads_back no_f64) [SIdent "a" false; SBool true] = true /\
  parse_all no_f64 ("(" ++ display_items show_zero [SIdent "a" false; SBool true] ++ "]")
    = AErr "No atom.".
Proof.
  split; [reflexivity|]. apply parse_all_mismatched_close; reflexivity.
Defined.

Lemma string_literal_recoded_witness :
  forallb (fun c => negb (Ascii.eqb c dquote) && negb (Ascii.eqb c backslash))
    (String.list_ascii_of_string (String "c" (String "233" EmptyString))) = true /\
  parse_expr no_f64 (String dquote (String "c" (String "233" EmptyString)
                                    ++ String dquote " x"))
    = POk (SStr (String "c" (String "195" (String "169" EmptyString)))) " x".
Proof.
  split; [reflexivity|].
  apply (string_literal_recoded no_f64 (String "c" (String "233" EmptyString)) " x").
  reflexivity.
Defined.

Lemma non_ascii_atom_rejected_witness :
  forallb (fun d => negb (Ascii.eqb "206" d)) [";"; "'"; "("; "["; dquote]%char = true /\
  forallb (fun d => is_valid_atom d && negb (is_whitespace d))
    (String.list_ascii_of_string (String "206" (String "187" EmptyString))) = true /\
  existsb (fun d => negb (is_ascii d))
    (String.list_ascii_of_string (String "206" (String "187" EmptyString))) = true /\
  no_f64 (latin1_to_utf8 (String "206" (String "187" EmptyString))) = None /\
  delimited ")" = true /\
  parse_expr no_f64 (String "206" (String "187" EmptyString) ++ ")")
  = PErr ("Invalid identifier "
          ++ latin1_to_utf8 (String "206" (String "187" EmptyString)) ++ ".").
Proof.
  do 5 (split; [reflexivity|]).
  apply non_ascii_atom_rejected; reflexivity.
Defined.

(* ================================================================== *)
(** * The engine: scopes, environment, intrinsics, special forms *)

Lemma same_frame_refl env : same_frame env env.
Proof. repeat split. Qed.

Create HintDb frame.
#[local] Hint Resolve same_frame_refl : frame.

Lemma same_frame_trans a b c :
  same_frame a b -> same_frame b c -> same_frame a c.
Proof. intros (?&?&?) (?&?&?). repeat split; congruence. Qed.

Lemma keeps_frame_weaken a b o :
  same_frame a b -> keeps_frame b o -> keeps_frame a o.
Proof.
  intros Hab. destruct o as [env' [v|e]| | |]; cbn; auto with frame.
  intros Hb. eapply same_frame_trans; eauto.
Qed.

Lemma define_same_frame k v env env' :
  define k v env = Some env' -> same_frame env env'.
Proof.
  unfold define. destruct (stack env) as [|s rest] eqn:E; [discriminate|].
  intros [= <-]. unfold same_frame, depth. cbn. rewrite E. auto.
Qed.

Lemma add_struct_same_frame n fs env : same_frame env (add_struct n fs env).
Proof. repeat split. Qed.

Lemma bind_params_same_frame ps args n env env' :
  bind_params ps args n env = Some env' -> same_frame env env'.
Proof.
  unfold bind_params.
  assert (G : forall l acc, foldl (bind_step ps args) acc l = Some env' ->
    forall e0, acc = Some e0 -> same_frame e0 env').
  { induction l as [|i l IH]; cbn; intros acc Hf e0 ->.
    - injection Hf as ->. apply same_frame_refl.
    - unfold bind_step in Hf at 2. cbn in Hf.
      destruct (ps !! i), (args !! i); cbn in Hf;
        try (clear -Hf; induction l; cbn in *; [discriminate|]; exact (IHl Hf)).
      destruct (define s v e0) as [e1|] eqn:Hd; cbn in Hf.
      + eapply same_frame_trans; [eapply define_same_frame; eauto|].
        eapply IH; eauto.
      + clear -Hf; induction l; cbn in *; [discriminate|]; exact (IHl Hf). }
  intros Hb. eapply G; eauto.
Qed.

Lemma define_all_same_frame defs env env' :
  define_all defs env = Some env' -> same_frame env env'.
Proof.
  unfold define_all. revert env.
  induction defs as [|[k v] defs IH]; intros env; cbn.
  - intros [= ->]. apply same_frame_refl.
  - destruct (define k v env) as [e1|] eqn:Hd; cbn.
    + intros Hf. eapply same_frame_trans; [eapply define_same_frame; eauto|].
      apply IH; exact Hf.
    + clear. induction defs as [|[] defs IH]; cbn; [discriminate|exact IH].
Qed.

Lemma exit_entered env e :
  same_frame (enter_scope env) e ->
  exists e', exit_scope e = Some e' /\ same_frame env e'.
Proof.
  intros (Hb & Ht & Hd). unfold exit_scope.
  unfold depth, enter_scope in *; cbn in *.
  destruct (stack e) as [|x rest] eqn:E; cbn in *; [discriminate|].
  eexists; split; [reflexivity|]. unfold same_frame, depth; cbn.
  rewrite Ht. repeat split; auto with frame.
Qed.


Lemma bind_keeps a env o k :
  same_frame a env -> keeps_frame env o ->
  (forall env' v, same_frame a env' -> keeps_frame a (k env' v)) ->
  keeps_frame a (bind_val o k).
Proof.
  intros Ha Ho Hk. destruct o as [env' [v|e]| | |]; cbn in *; auto with frame.
  apply Hk. eapply same_frame_trans; eauto.
Qed.

Lemma or_panic_err a o e :
  keeps_frame a (or_panic o (fun env => Ret env (Err e))).
Proof. destruct o; exact I. Qed.

Section Frame.
Variable ev : evaluator.
Hypothesis Hev : forall e env, keeps_frame env (ev e env).

Lemma ev_keeps a e env : same_frame a env -> keeps_frame a (ev e env).
Proof. intros. eapply keeps_frame_weaken; eauto. Qed.

Lemma eval_all_keeps es : forall a env k,
  same_frame a env ->
  (forall env' vs, same_frame a env' -> keeps_frame a (k env' vs)) ->
  keeps_frame a (eval_all ev es env k).
Proof.
  induction es as [|e es IH]; intros a env k Ha Hk; cbn; [auto|].
  eapply bind_keeps; [exact Ha|apply Hev|].
  intros env' v Ha'. apply IH; auto with frame.
Qed.

Lemma finish_keeps env body e :
  same_frame (enter_scope env) e ->
  keeps_frame env
    (let? (env, res) := ev body e in
     or_panic (exit_scope env) (fun env => Ret env (Ok res))).
Proof.
  intros He. destruct (ev body e) as [e2 [v|err]| | |] eqn:Hb; cbn; auto with frame.
  pose proof (Hev body e) as K. rewrite Hb in K. cbn in K.
  destruct (exit_entered env e2) as (e3 & -> & H3);
    [eapply same_frame_trans; eauto|]. exact H3.
Qed.

Lemma eval_func_keeps func args env :
  keeps_frame env (eval_func ev func args env).
Proof.
  unfold eval_func. destruct func as [| | | | |params body variadic| | |];
    cbn -[Nat.ltb Nat.eqb Nat.leb]; auto with frame.
  destruct variadic.
  - destruct (Nat.eqb (length params) 0); cbn -[Nat.ltb Nat.eqb Nat.leb]; auto with frame.
    destruct (Nat.ltb (length args) (length params - 1)); cbn -[Nat.ltb Nat.eqb Nat.leb]; auto with frame.
    destruct (bind_params params args (length params - 1) (enter_scope env))
      as [e1|] eqn:Hb; cbn -[Nat.ltb Nat.eqb Nat.leb]; auto with frame.
    destruct (params !! (length params - 1)) as [rn|]; cbn -[Nat.ltb Nat.eqb Nat.leb]; auto with frame.
    match goal with |- context [define rn ?l e1] =>
      destruct (define rn l e1) as [e2|] eqn:Hd end; cbn -[Nat.ltb Nat.eqb Nat.leb]; auto with frame.
    apply finish_keeps.
    eapply same_frame_trans; [eapply bind_params_same_frame; eauto|].
    eapply define_same_frame; eauto.
  - destruct (negb (Nat.eqb (length params) (length args))); cbn -[Nat.ltb Nat.eqb Nat.leb]; auto with frame.
    destruct (bind_params params args (length params) (enter_scope env))
      as [e1|] eqn:Hb; cbn -[Nat.ltb Nat.eqb Nat.leb]; auto with frame.
    apply finish_keeps. eapply bind_params_same_frame; eauto.
Qed.

Lemma cond_clauses_keeps env cs : forall e,
  same_frame (enter_scope env) e -> keeps_frame env (cond_clauses ev cs e).
Proof.
  induction cs as [|c cs IH]; intros e He; cbn.
  - destruct (exit_entered env e He) as (e' & -> & H'). exact H'.
  - destruct c as [| | | |l| |]; cbn -[exit_scope define];
      try apply or_panic_err; try exact I.
    destruct l as [|t [|th [|x l]]]; cbn -[exit_scope define];
      try apply or_panic_err; try exact I.
    destruct (ev t e) as [e2 [v|err]| | |] eqn:Ht; cbn -[exit_scope define]; auto with frame.
    pose proof (Hev t e) as K. rewrite Ht in K. cbn -[exit_scope define] in K.
    assert (He2 : same_frame (enter_scope env) e2) by
      (eapply same_frame_trans; eauto).
    destruct v as [|[]| | | | | | |]; cbn -[exit_scope define]; auto;
      destruct (exit_entered env e2 He2) as (e' & -> & H'); cbn -[exit_scope define]; auto with frame.
    apply ev_keeps; auto with frame.
Qed.

Lemma let_bindings_keeps env body bs : forall e,
  same_frame (enter_scope env) e -> keeps_frame env (let_bindings ev bs body e).
Proof.
  induction bs as [|b bs IH]; intros e He; cbn.
  - destruct (ev body e) as [e2 r| | |] eqn:Hb; cbn -[exit_scope define]; auto with frame.
    pose proof (Hev body e) as K. rewrite Hb in K.
    destruct r as [v|err]; cbn -[exit_scope define] in K.
    + destruct (exit_entered env e2) as (e' & -> & H');
        [eapply same_frame_trans; eauto|]. exact H'.
    + destruct (exit_scope e2); cbn -[exit_scope define]; auto with frame.
  - destruct b as [| | | |l| |]; cbn -[exit_scope define];
      try apply or_panic_err; try exact I.
    destruct l as [|n [|x [|y l]]]; cbn -[exit_scope define]; auto;
      try (destruct n; exact I).
    destruct n as [| | |s vv| | |]; cbn -[exit_scope define];
      try apply or_panic_err; try exact I.
    destruct (ev x e) as [e2 [v|err]| | |] eqn:Hx; cbn -[exit_scope define]; auto with frame.
    pose proof (Hev x e) as K. rewrite Hx in K. cbn -[exit_scope define] in K.
    destruct (define s v e2) as [e3|] eqn:Hd; cbn -[exit_scope define]; auto with frame.
    apply IH. eapply same_frame_trans; [eapply same_frame_trans; eauto|].
    eapply define_same_frame; eauto.
Qed.

Ltac triv := try solve [cbn -[exit_scope define];
  repeat (case_match; cbn -[exit_scope define]); auto with frame].

Lemma bind_ev_keeps env e k :
  (forall env' v, same_frame env env' -> keeps_frame env (k env' v)) ->
  keeps_frame env (bind_val (ev e env) k).
Proof. intros. eapply bind_keeps; [apply same_frame_refl|apply Hev|auto]. Qed.

Lemma call_macro_keeps m env exprs :
  keeps_frame env (call_macro ev m env exprs).
Proof.
  destruct m; cbn -[exit_scope define define_all].
  - (* define *)
    destruct exprs as [|h [|idt [|val rest]]]; triv.

    destruct idt as [| | |s v|vals| |]; triv.
    destruct rest; triv. case_match; triv.
    apply bind_ev_keeps. intros e' x He'.
    destruct (define s x e') eqn:Hd; cbn; auto with frame.
    eapply same_frame_trans; [exact He'|]. eapply define_same_frame; eauto.
  - (* lambda *)
    destruct exprs as [|h [|p [|b [|x l]]]]; triv.
  - (* if *)
    destruct exprs as [|h [|c [|t [|o [|x l]]]]]; triv.
    apply bind_ev_keeps. intros e' v He'.
    destruct v as [|[]| | | | | | |]; cbn; auto; apply ev_keeps; auto.
  - (* cond *)
    destruct (define "else" (Bool true) (enter_scope env)) as [e|] eqn:Hd;
      cbn; auto.
    apply cond_clauses_keeps. eapply define_same_frame; eauto.
  - (* let *)
    destruct exprs as [|h [|bs [|b [|x l]]]]; triv.
    destruct bs; triv.
    apply let_bindings_keeps. apply same_frame_refl.
  - (* define-struct *)
    destruct exprs as [|h [|n [|vs [|x l]]]]; triv.
    destruct n; triv. destruct vs as [| | | |vals| |]; triv.
    destruct vals; triv. case_match; triv.
    match goal with |- context [define_all ?a ?b] =>
      destruct (define_all a b) eqn:Hd end; cbn; auto.
    eapply same_frame_trans; [apply add_struct_same_frame|].
    eapply define_all_same_frame; eauto.
  - (* struct predicate *)
    destruct exprs as [|h [|a [|x l]]]; triv.
    destruct h; triv. case_match; triv. case_match; triv.
    apply bind_ev_keeps. intros e' v He'. destruct v; cbn; auto.
  - (* struct accessor *)
    destruct exprs as [|h [|a [|x l]]]; triv.
    destruct h; triv. case_match; triv.
    apply bind_ev_keeps. intros e' v He'. destruct v; cbn; auto.
    repeat (case_match; cbn; auto).
  - (* struct constructor *)
    destruct exprs as [|h l]; triv.
    destruct h; triv. repeat (case_match; triv).
    apply eval_all_keeps; auto with frame.
Qed.

Variable H : host.
Hypothesis Hhost : host_keeps_frame H.
Variable call : intrinsic -> environment -> list value -> outcome.
Hypothesis Hcall : forall g env args, keeps_frame env (call g env args).

Lemma call_intrinsic_keeps f env args :
  keeps_frame env (call_intrinsic H ev call f env args).
Proof.
  destruct f; cbn -[eval_func same_frame];
    unfold with_arity, unary_fn, binary_fn, sub_like, type_check,
      compare_with;
    repeat (case_match; cbn -[eval_func same_frame];
            auto using eval_func_keeps with frame).
  all: first [apply same_frame_refl | apply Hhost].
Qed.

Lemma eval_step_keeps e env :
  keeps_frame env (eval_step H ev call e env).
Proof.
  destruct e as [| | | |l| |]; cbn -[eval_func eval_all call_macro]; auto with frame.
  - repeat (case_match; cbn -[eval_func eval_all call_macro]; auto with frame).
  - destruct l as [|h rest]; cbn -[eval_func eval_all call_macro]; auto with frame.
    eapply bind_keeps; [apply same_frame_refl|apply Hev|].
    intros e' v He'. destruct v; cbn -[eval_func eval_all call_macro]; auto with frame.
    + apply eval_all_keeps; auto. intros e2 vs H2.
      eapply keeps_frame_weaken; [exact H2|]. apply eval_func_keeps.
    + apply eval_all_keeps; auto. intros e2 vs H2.
      eapply keeps_frame_weaken; [exact H2|]. apply Hcall.
    + eapply keeps_frame_weaken; [exact He'|]. apply call_macro_keeps.
Qed.
End Frame.

(** X8: If the host's built-ins keep the outer scopes, then a successful
    evaluation or intrinsic call leaves the base scope, every scope below
    the innermost one, and the scope depth unchanged. It can change only the
    innermost scope and the struct registry. *)
Theorem eval_keeps_outer_scopes (H : host) (Hhost : host_keeps_frame H) :
  forall fuel,
  (forall e env, keeps_frame env (eval H fuel e env)) /\
  (forall g env args, keeps_frame env (call_at H fuel g env args)).
Proof.
  induction fuel as [|f [IHe IHc]]; cbn; [split; intros; exact I|].
  split; intros.
  - apply eval_step_keeps; auto with frame.
  - apply call_intrinsic_keeps; auto with frame.
Qed.

(** Environment *)

Lemma lookup_scopes_insert_top s rest k v k' :
  lookup_scopes k' (<[k := v]> s :: rest) =
  if String.eqb k' k then Some v else lookup_scopes k' (s :: rest).
Proof.
  cbn. destruct (String.eqb_spec k' k) as [->|Hne].
  - by rewrite lookup_insert_eq.
  - rewrite lookup_insert_ne by congruence. reflexivity.
Qed.

Lemma define_lookup (k : string) (v : value) (env env' : environment) :
  define k v env = Some env' ->
  get env' k = Some v /\
  (forall k', k' <> k -> get env' k' = get env k') /\
  structs env' = structs env.
Proof.
  intros Hd.
  unfold define in Hd. destruct (stack env) as [|s rest] eqn:E; [discriminate|].
  injection Hd as <-. unfold get; cbn. rewrite E.
  split; [|split; [|reflexivity]].
  - rewrite lookup_insert_eq. reflexivity.
  - intros k' Hk. rewrite lookup_insert_ne by congruence. reflexivity.
Qed.

Lemma define_none (k : string) (v : value) (env : environment) :
  define k v env = None <-> stack env = [].
Proof. unfold define. destruct (stack env); split; congruence. Qed.

(** X9: Environment::define fails (a panic) exactly when the scope stack is
    empty. Otherwise get then returns the defined value for that key and the
    old result for every other key, and the struct registry is unchanged. *)
Theorem define_then_get (k : string) (v : value) (env : environment) :
  (define k v env = None <-> stack env = []) /\
  (forall env', define k v env = Some env' ->
   get env' k = Some v /\
   (forall k', k' <> k -> get env' k' = get env k') /\
   structs env' = structs env).
Proof. split; [apply define_none|apply define_lookup]. Qed.

(** X10: Entering a scope changes no lookup. A definition made in the new
    scope is visible, and exiting the scope gives back exactly the
    environment from before it was entered. *)
Theorem scoped_define_discarded (env : environment) (k : string) (v : value) :
  (forall k', get (enter_scope env) k' = get env k') /\
  exists e', define k v (enter_scope env) = Some e' /\
             get e' k = Some v /\ exit_scope e' = Some env.
Proof.
  split.
  - intros k'. unfold get, enter_scope. cbn. rewrite lookup_empty. reflexivity.
  - eexists. split; [reflexivity|]. split.
    + unfold get. cbn. rewrite lookup_insert_eq. reflexivity.
    + destruct env. reflexivity.
Qed.

(** X11: After add_struct, get_struct returns the given fields for that name
    and the old entry for every other name. Variable lookup is unchanged. *)
Theorem struct_registry (name : string) (fields : list string) (env : environment) :
  get_struct (add_struct name fields env) name = Some fields /\
  (forall n, n <> name -> get_struct (add_struct name fields env) n = get_struct env n) /\
  (forall k, get (add_struct name fields env) k = get env k).
Proof.
  unfold get_struct, add_struct, get. cbn. split; [|split].
  - apply lookup_insert_eq.
  - intros n Hn. apply lookup_insert_ne. congruence.
  - reflexivity.
Qed.

(** X12: FieldIndex::index returns the position of the first occurrence of
    the key in the field list. It returns None exactly when the key is not
    one of the fields. *)
Theorem field_index_first (fields : list string) (key : string) (i : nat) :
  (field_index fields key = Some i <->
   fields !! i = Some key /\ forall j, j < i -> fields !! j <> Some key) /\
  (field_index fields key = None <-> key ∉ fields).
Proof.
  revert i. induction fields as [|k rest IH]; intros i; cbn.
  - split; [split; [discriminate|intros [? _]; discriminate]|].
    split; [intros _; apply not_elem_of_nil|reflexivity].
  - destruct (String.eqb_spec k key) as [->|Hne].
    + split.
      * split; [intros [= <-]; split; [reflexivity|intros; lia]|].
        intros [Hi Hj]. destruct i as [|i]; [reflexivity|].
        exfalso. apply (Hj 0); [lia|reflexivity].
      * split; [discriminate|]. intros Hn. exfalso. apply Hn. left.
    + split.
      * destruct (field_index rest key) as [m|] eqn:Hm.
        -- split.
           ++ intros [= <-]. cbn. destruct (proj1 (proj1 (IH m)) eq_refl) as [Hm1 Hm2].
              split; [exact Hm1|]. intros [|j] Hj; cbn; [congruence|].
              apply Hm2. lia.
           ++ intros [Hi Hj]. destruct i as [|i]; [cbn in Hi; congruence|].
              assert (Some m = Some i) as [= ->]; [|reflexivity].
              apply (proj1 (IH i)). split; [exact Hi|].
              intros j Hji. apply (Hj (S j)). lia.
        -- split; [discriminate|]. intros [Hi _].
           destruct i as [|i]; [cbn in Hi; congruence|].
           cbn in Hi. pose proof (proj1 (proj2 (IH 0)) eq_refl) as Hn.
           exfalso. apply Hn. eapply list_elem_of_lookup_2; eauto.
      * destruct (field_index rest key) as [m|] eqn:Hm.
        -- split; [discriminate|]. intros Hn. exfalso. apply Hn. right.
           destruct (proj1 (proj1 (IH m)) eq_refl) as [Hm1 _].
           eapply list_elem_of_lookup_2; eauto.
        -- split; [|reflexivity]. intros _ Hin.
           apply elem_of_cons in Hin as [->|Hin]; [congruence|].
           exact (proj1 (proj2 (IH 0)) eq_refl Hin).
Qed.

(** Intrinsics *)

Section Intrinsics.
Variable H : host.
Variable ev : evaluator.
Variable call : intrinsic -> environment -> list value -> outcome.

Lemma fold_nums_map (op : float -> float -> float) acc xs :
  fold_nums op acc (map Num xs) = Ok (Num (fold_left op xs acc)).
Proof. revert acc. induction xs; cbn; auto. Qed.

(** X13: + over numbers is the left fold of addition starting from 0, and *
    is the left fold of multiplication starting from 1. If an argument is
    not a number, the first such argument makes both return a not-a-number
    error for it, in an unchanged environment. *)
Theorem arith_fold (env : environment) (xs : list float) (v : value)
    (rest : list value) :
  call_intrinsic H ev call I_add env (map Num xs)
    = Ret env (Ok (Num (fold_left PrimFloat.add xs 0%float))) /\
  call_intrinsic H ev call I_mul env (map Num xs)
    = Ret env (Ok (Num (fold_left PrimFloat.mul xs 1%float))) /\
  (is_num v = false ->
   call_intrinsic H ev call I_add env (map Num xs ++ v :: rest)
     = Ret env (Err (NotANumber v)) /\
   call_intrinsic H ev call I_mul env (map Num xs ++ v :: rest)
     = Ret env (Err (NotANumber v))).
Proof.
  cbn. rewrite !fold_nums_map. split; [reflexivity|split; [reflexivity|]].
  intros Hv.
  assert (G : forall op acc, fold_nums op acc (map Num xs ++ v :: rest)
                             = Err (NotANumber v)).
  { induction xs as [|x xs IH]; intros op acc; cbn; [|apply IH].
    destruct v; try discriminate; reflexivity. }
  rewrite !G. split; reflexivity.
Qed.

(** X14: or and and over booleans compute the disjunction and the
    conjunction. They stop at the first true (or) or the first false (and),
    so the arguments after it are not checked. *)
Theorem logic_on_bools (env : environment) (bs : list bool) (k : nat)
    (rest : list value) :
  call_intrinsic H ev call I_or env (map Bool bs)
    = Ret env (Ok (Bool (existsb id bs))) /\
  call_intrinsic H ev call I_and env (map Bool bs)
    = Ret env (Ok (Bool (forallb id bs))) /\
  call_intrinsic H ev call I_or env (repeat (Bool false) k ++ Bool true :: rest)
    = Ret env (Ok (Bool true)) /\
  call_intrinsic H ev call I_and env (repeat (Bool true) k ++ Bool false :: rest)
    = Ret env (Ok (Bool false)).
Proof.
  cbn. split; [|split; [|split]]; f_equal.
  - induction bs as [|[] bs IH]; cbn; auto.
  - induction bs as [|[] bs IH]; cbn; auto.
  - induction k; cbn; auto.
  - induction k; cbn; auto.
Qed.

(** X15: exit never returns a value. For any arguments it either stops the
    process or returns an error, and in the error case the environment is
    unchanged. *)
Theorem exit_never_returns (env : environment) (args : list value) :
  match call_intrinsic H ev call I_exit env args with
  | Halt _ => True
  | Ret env' (Err _) => env' = env
  | _ => False
  end.
Proof. cbn. destruct args as [|[] [|]]; cbn; auto. Qed.
End Intrinsics.

(** Special forms *)

Lemma lambda_params_plain (len i : nat) (ps : list string) :
  lambda_params len i (map Id ps) = inr ps.
Proof.
  revert i. induction ps as [|p ps IH]; intros i; [reflexivity|].
  cbn. rewrite IH. reflexivity.
Qed.

Lemma last_map_Id (ps : list string) :
  match last (map Id ps) with Some (SIdent _ v) => v | _ => false end = false.
Proof.
  induction ps as [|p [|q ps] IH]; [reflexivity|reflexivity|exact IH].
Qed.

(** X16: (define name value) with a reserved name returns a reserved-word
    error without evaluating value. Otherwise, if value evaluates and a
    scope exists, it returns the empty list and binds name to the value in
    the environment the evaluation left. *)
Theorem define_form (ev : evaluator) (env : environment) (h val : sexpr)
    (s : string) (v : bool) :
  (s ∈ RESERVED_WORDS ->
   call_macro ev M_define env [h; SIdent s v; val] = Ret env (Err (ReservedWord s))) /\
  (forall x env', s ∉ RESERVED_WORDS -> ev val env = Ret env' (Ok x) ->
   stack env' <> [] ->
   exists env'', call_macro ev M_define env [h; SIdent s v; val]
                 = Ret env'' (Ok empty) /\
                 define s x env' = Some env'' /\ get env'' s = Some x).
Proof.
  split.
  - intros Hs. cbn. rewrite bool_decide_eq_true_2 by exact Hs. reflexivity.
  - intros x env' Hs Hv Hst. cbn. rewrite bool_decide_eq_false_2 by exact Hs.
    rewrite Hv. cbn. destruct (define s x env') as [e''|] eqn:Hd.
    + exists e''. split; [reflexivity|]. split; [reflexivity|].
      apply (define_lookup s x env' e'' Hd).
    + apply define_none in Hd. contradiction.
Qed.

(** X17: (define (f p1 ...) body ...) binds f to a non-variadic closure over
    p1 ... and returns the empty list. With more than one body expression,
    the body is wrapped in (begin ...). This needs define and lambda bound
    to their handlers, a scope to define in, and an f that is not reserved. *)
Theorem define_function_sugar (H : host) (f : nat) (env : environment)
    (fname : string) (ps : list string) (body : sexpr) (rest : list sexpr)
    (Hdef : get env "define" = Some (Macro M_define))
    (Hlam : get env "lambda" = Some (Macro M_lambda))
    (Hst : stack env <> [])
    (Hres : fname ∉ RESERVED_WORDS) :
  exists env',
    eval H (4 + f)
      (SList (Id "define" :: SList (Id fname :: map Id ps) :: body :: rest)) env
    = Ret env' (Ok empty) /\
    define fname
      (Func ps (match rest with
                | [] => body
                | _ => SList (Id "begin" :: body :: rest)
                end) false) env = Some env'.
Proof.
  destruct (define fname _ env) as [env'|] eqn:Hd;
    [|apply define_none in Hd; contradiction].
  exists env'. split; [|reflexivity].
  cbn -[get define RESERVED_WORDS lambda_params]. rewrite Hdef.
  cbn -[get define RESERVED_WORDS lambda_params]. rewrite Hdef.
  cbn -[get define RESERVED_WORDS lambda_params].
  rewrite bool_decide_eq_false_2 by exact Hres.
  cbn -[get define RESERVED_WORDS lambda_params]. rewrite Hlam.
  cbn -[get define RESERVED_WORDS lambda_params].
  rewrite lambda_params_plain, last_map_Id.
  cbn -[get define]. unfold Id in Hd. destruct rest; rewrite Hd; reflexivity.
Qed.

(** X18: A cond whose tests are all false returns the empty list and leaves
    the environment as it was. An else clause after those tests evaluates
    its body in the environment from before the cond, so the else binding
    that cond creates is not visible in the clause body. *)
Theorem cond_fallthrough_and_else (H : host) (f : nat) (env : environment)
    (es : list sexpr) (e : sexpr)
    (Hcond : get env "cond" = Some (Macro M_cond)) :
  eval H (2 + f)
    (SList (Id "cond" :: map (fun a => SList [SBool false; a]) es)) env
  = Ret env (Ok empty) /\
  eval H (2 + f)
    (SList (Id "cond" :: map (fun a => SList [SBool false; a]) es
             ++ [SList [Id "else"; e]])) env
  = eval H (1 + f) e env.
Proof.
  destruct env as [b st sts].
  assert (G : forall tail,
    eval H (2 + f)
      (SList (Id "cond" :: map (fun a => SList [SBool false; a]) es ++ tail))
      (mkEnv b st sts)
    = cond_clauses (eval H (S f)) tail
        (mkEnv b ({["else" := Bool true]} :: st) sts)).
  { intros tl. cbn -[get cond_clauses]. rewrite Hcond.
    cbn -[cond_clauses]. rewrite insert_empty.
    induction es as [|a es IH]; [reflexivity|]. cbn -[cond_clauses].
    exact IH. }
  split.
  - specialize (G []). rewrite app_nil_r in G. rewrite G. reflexivity.
  - rewrite G. cbn. rewrite lookup_singleton_eq. reflexivity.
Qed.

Lemma sexpr_of_value_of_plain (e : sexpr) :
  plain_data e = true -> sexpr_of_value (value_of_sexpr e) = Some e.
Proof.
  induction e as [| | | |es Hes| |] using sexpr_nested_ind; intros Hp;
    try reflexivity; try discriminate.
  revert Hp. induction Hes as [|x xs Hx Hxs IH]; intros Hp; [reflexivity|].
  cbn [plain_data forallb] in Hp. apply andb_true_iff in Hp as [Hpx Hpxs].
  change (sexpr_of_value (List (value_of_sexpr x :: map value_of_sexpr xs))
          = Some (SList (x :: xs))).
  rewrite sexpr_of_value_cons, (Hx Hpx).
  specialize (IH Hpxs).
  change (sexpr_of_value (List (map value_of_sexpr xs)) = Some (SList xs)) in IH.
  rewrite IH. reflexivity.
Qed.

(** X19: (eval 'e) evaluates e itself when e contains no quote and no nil,
    provided eval is bound to the built-in. *)
Theorem eval_of_quote (H : host) (f : nat) (env : environment) (e : sexpr)
    (Hev : get env "eval" = Some (Intrinsic I_eval))
    (He : plain_data e = true) :
  eval H (2 + f) (SList [Id "eval"; SQuote e]) env = eval H f e env.
Proof.
  cbn -[get sexpr_of_value]. rewrite Hev.
  cbn -[sexpr_of_value]. rewrite sexpr_of_value_of_plain by exact He.
  reflexivity.
Qed.


Lemma lambda_params_spec (len : nat) params : forall i names,
  lambda_params len i params = inr names ->
  map ident_name params = map Some names /\
  (forall j s, params !! j = Some (SIdent s true) -> i + j = len - 1).
Proof.
  induction params as [|p params IH]; intros i names Hl; cbn in Hl.
  - injection Hl as <-. split; [reflexivity|]. intros j s Hj. discriminate.
  - destruct p as [| | |s v| | |]; try discriminate.
    destruct (v && negb (Nat.eqb i (len - 1))) eqn:Hv; [discriminate|].
    destruct (lambda_params len (S i) params) as [|ns] eqn:Hr; [discriminate|].
    injection Hl as <-. destruct (IH (S i) ns Hr) as [Hm Hj].
    split; [cbn; f_equal; exact Hm|].
    intros [|j] s' Hs.
    + cbn in Hs. injection Hs as -> ->. cbn in Hv.
      destruct (Nat.eqb_spec i (len - 1)); [lia|discriminate].
    + cbn in Hs. specialize (Hj j s' Hs). lia.
Qed.

(** X20: A successful lambda leaves the environment unchanged. It returns a
    closure with the given body and the parameter names in order. Only the
    last parameter can be variadic, and a variadic closure has at least one
    parameter. *)
Theorem lambda_closure (ev : evaluator) (env env' : environment) (h : sexpr)
    (params : list sexpr) (body b : sexpr) (names : list string)
    (variadic : bool)
    (Hl : call_macro ev M_lambda env [h; SList params; body]
          = Ret env' (Ok (Func names b variadic))) :
  env' = env /\ b = body /\
  map ident_name params = map Some names /\
  (forall j s, params !! j = Some (SIdent s true) -> S j = length params) /\
  (variadic = true -> names <> []).
Proof.
  cbn in Hl. destruct (lambda_params (length params) 0 params) as [|ns] eqn:Hp;
    [discriminate|].
  injection Hl as <- <- <- Hv.
  destruct (lambda_params_spec _ _ _ _ Hp) as [Hm Hj].
  split; [reflexivity|split; [reflexivity|split; [exact Hm|split]]].
  - intros j s Hs. specialize (Hj j s Hs).
    apply lookup_lt_Some in Hs. lia.
  - intros Hvar ->. rewrite <- Hv in Hvar.
    destruct params; [discriminate Hvar|discriminate Hm].
Qed.

(** Name resolution with the [#super:] marker *)

Lemma ascii_boundary (c : Ascii.ascii) :
  is_ascii c = true -> negb (N.eqb (N.land (Ascii.N_of_ascii c) 192) 128) = true.
Proof.
  destruct c as [[] [] [] [] [] [] [] []]; vm_compute; intros;
    first [reflexivity|discriminate].
Qed.

Lemma string_get_app_front (a b : string) (i : nat) :
  i < String.length a -> String.get i (a ++ b) = String.get i a.
Proof.
  revert i. induction a as [|c a IH]; intros i Hi; cbn in Hi; [lia|].
  rewrite string_app_cons. destruct i; cbn; [reflexivity|]. apply IH. lia.
Qed.

Lemma string_get_ascii (t : string) (i : nat) :
  forallb is_ascii (String.list_ascii_of_string t) = true ->
  i < String.length t -> exists c, String.get i t = Some c /\ is_ascii c = true.
Proof.
  revert i. induction t as [|c t IH]; intros i Ht Hi; cbn in Hi; [lia|].
  cbn in Ht. apply andb_true_iff in Ht as [Hc Ht].
  destruct i; cbn; [eauto|]. apply IH; [exact Ht|lia].
Qed.

Lemma index_super_inside (p x : string) :
  String.index 0 SUPER (p ++ SUPER ++ x) <> None.
Proof.
  induction p as [|c p IH].
  - rewrite string_app_nil, index_super_prefix. discriminate.
  - rewrite string_app_cons. cbn [String.index].
    destruct (String.prefix SUPER _); [discriminate|].
    destruct (String.index 0 SUPER (p ++ SUPER ++ x)); [discriminate|].
    exact IH.
Qed.

Lemma string_length_substring_le (n m : nat) (s : string) :
  n + m <= String.length s -> String.length (String.substring n m s) = m.
Proof.
  revert n m. induction s as [|c s IH]; intros n m Hs; cbn in Hs.
  - destruct n, m; cbn in *; lia.
  - destruct n as [|n]; cbn.
    + destruct m as [|m]; cbn; [reflexivity|]. f_equal. apply IH. lia.
    + apply IH. lia.
Qed.

(** X21: An identifier '#super:x' is looked up in the enclosing scopes
    (get_super) under x. If the marker appears later in the identifier,
    after a non-empty ASCII prefix, the code still drops the identifier's
    first 7 bytes, not the marker. The name looked up is then the identifier
    minus its first 7 bytes. *)
Theorem super_marker_lookup (H : host) (f : nat) (env : environment)
    (p x : string) (v : bool)
    (Hx : utf8_lead_ok x = true) :
  eval H (S f) (SIdent (SUPER ++ x) v) env
  = match get_super env x with
    | Some val => Ret env (Ok val)
    | None => Ret env (Err (Unbound x))
    end /\
  (p <> "" -> forallb is_ascii (String.list_ascii_of_string p) = true ->
   let s := p ++ SUPER ++ x in
   let k := String.substring 7 (String.length s - 7) s in
   String.length k = String.length p + String.length x /\
   eval H (S f) (SIdent s v) env
   = match get_super env k with
     | Some val => Ret env (Ok val)
     | None => Ret env (Err (Unbound k))
     end).
Proof.
  split.
  - cbn [eval eval_step]. rewrite index_super_prefix.
    change SUPER_LEN with (String.length SUPER).
    rewrite slice_from_app_prefix by exact Hx. reflexivity.
  - intros Hp Ha s k.
    assert (Hlen : String.length s = String.length p + 7 + String.length x).
    { unfold s. rewrite !string_length_app. cbn. lia. }
    split.
    { unfold k. rewrite string_length_substring_le; lia. }
    cbn [eval eval_step].
    destruct (String.index 0 SUPER s) eqn:Hi;
      [|exfalso; exact (index_super_inside p x Hi)].
    unfold slice_from. change SUPER_LEN with 7.
    assert (Hb : is_char_boundary s 7 = true).
    { unfold is_char_boundary. apply orb_true_iff. right.
      destruct p as [|c p']; [congruence|].
      assert (Hpa : forallb is_ascii (String.list_ascii_of_string
                      (String c p' ++ SUPER)) = true).
      { rewrite list_ascii_of_string_app, forallb_app, Ha. reflexivity. }
      assert (H7 : 7 < String.length (String c p' ++ SUPER)).
      { rewrite string_length_app. cbn. lia. }
      destruct (string_get_ascii _ 7 Hpa H7) as (c7 & Hc7 & Hac).
      unfold s. rewrite <- string_app_assoc, string_get_app_front by exact H7.
      rewrite Hc7. apply ascii_boundary. exact Hac. }
    rewrite Hb. reflexivity.
Qed.

Lemma split_loop_plain (s t : string) : forall last i prev strs,
  no_open_brace t = true ->
  split_loop s t false last i prev strs
  = Some (strs, false, last, i + char_count t).
Proof.
  induction t as [|c t IH]; intros last i prev strs Ht; cbn; [f_equal; f_equal; lia|].
  cbn in Ht. apply andb_true_iff in Ht as [Hc Ht].
  apply negb_true_iff in Hc. rewrite Hc. cbn [andb].
  rewrite andb_false_r.
  destruct (is_continuation c); cbn.
  - rewrite IH by exact Ht. reflexivity.
  - rewrite IH by exact Ht. f_equal. f_equal. lia.
Qed.

(** X22: For text with no '{', split_str returns one text section, cut at
    the text's character count taken as a byte offset. Non-ASCII text is
    therefore truncated, or the call panics when that offset is not a
    character boundary. Empty text gives no section. *)
Theorem split_str_counts_chars (t : string) (Ht : no_open_brace t = true) :
  split_str t =
  if Nat.eqb (char_count t) 0 then Some (inr [])
  else match slice_range t 0 (char_count t) with
       | Some sec => Some (inr [SecStr sec])
       | None => None
       end.
Proof.
  unfold split_str. rewrite split_loop_plain by exact Ht. cbn [Nat.add].
  destruct (char_count t) as [|n]; cbn; [reflexivity|].
  destruct (slice_range t 0 (S n)); reflexivity.
Qed.

Lemma ascii_not_continuation (c : Ascii.ascii) :
  is_ascii c = true -> is_continuation c = false.
Proof.
  destruct c as [[] [] [] [] [] [] [] []]; vm_compute; intros;
    first [reflexivity|discriminate].
Qed.

Lemma no_marker_from_prev (prev : Ascii.ascii) (t : string) :
  Ascii.eqb prev "#" = false -> no_marker_from prev t = no_marker t.
Proof.
  intros Hp. destruct t as [|c t]; [reflexivity|].
  unfold no_marker. cbn [no_marker_from]. rewrite Hp.
  rewrite !andb_false_r. reflexivity.
Qed.

Lemma split_loop_text (s t rest : string) : forall last i prev strs,
  all_ascii t = true -> no_marker_from prev t = true ->
  split_loop s (t ++ rest) false last i prev strs
  = split_loop s rest false last (i + String.length t) (last_char prev t) strs.
Proof.
  induction t as [|c t IH]; intros last i prev strs Ha Hm.
  - rewrite string_app_nil, Nat.add_0_r. reflexivity.
  - cbn in Ha, Hm. apply andb_true_iff in Ha as [Hc Ha].
    apply andb_true_iff in Hm as [Hcm Hm].
    rewrite string_app_cons. cbn [split_loop].
    rewrite ascii_not_continuation by exact Hc.
    apply negb_true_iff in Hcm. rewrite Hcm, andb_false_r.
    rewrite IH by assumption. cbn [String.length last_char].
    f_equal. lia.
Qed.

Lemma split_loop_expr (s e rest : string) : forall last i prev strs,
  all_ascii e = true -> no_marker_from prev e = true ->
  no_close_brace e = true ->
  split_loop s (e ++ rest) true last i prev strs
  = split_loop s rest true last (i + String.length e) (last_char prev e) strs.
Proof.
  induction e as [|c e IH]; intros last i prev strs Ha Hm Hc.
  - rewrite string_app_nil, Nat.add_0_r. reflexivity.
  - cbn in Ha, Hm, Hc. apply andb_true_iff in Ha as [Hca Ha].
    apply andb_true_iff in Hm as [Hcm Hm].
    apply andb_true_iff in Hc as [Hcc Hc].
    rewrite string_app_cons. cbn [split_loop].
    rewrite ascii_not_continuation by exact Hca.
    apply negb_true_iff in Hcm, Hcc. rewrite Hcm, Hcc. cbn [andb].
    rewrite IH by assumption. cbn [String.length last_char].
    f_equal. lia.
Qed.

Lemma string_get_length (s : string) : String.get (String.length s) s = None.
Proof. induction s; cbn; auto. Qed.

Lemma ascii_char_boundary (s : string) (k : nat) :
  all_ascii s = true -> k <= String.length s -> is_char_boundary s k = true.
Proof.
  intros Ha Hk. unfold is_char_boundary. apply orb_true_iff. right.
  destruct (Nat.eq_dec k (String.length s)) as [->|Hne].
  - rewrite string_get_length. apply Nat.eqb_refl.
  - destruct (string_get_ascii s k Ha) as (c & -> & Hc); [lia|].
    apply ascii_boundary. exact Hc.
Qed.

Lemma all_ascii_app (a b : string) :
  all_ascii (a ++ b) = all_ascii a && all_ascii b.
Proof. unfold all_ascii. rewrite list_ascii_of_string_app, forallb_app. reflexivity. Qed.

Lemma slice_range_mid (a b c : string) :
  all_ascii (a ++ b ++ c) = true ->
  slice_range (a ++ b ++ c) (String.length a) (String.length a + String.length b)
  = Some b.
Proof.
  intros Ha. unfold slice_range.
  assert (Hl : String.length (a ++ b ++ c)
               = String.length a + String.length b + String.length c).
  { rewrite !string_length_app. lia. }
  rewrite !ascii_char_boundary by (exact Ha || lia).
  replace (Nat.leb _ _) with true by (symmetry; apply Nat.leb_le; lia).
  cbn [andb]. f_equal.
  replace (String.length a + String.length b - String.length a)
    with (String.length b) by lia.
  rewrite substring_app_prefix, substring_app_front. reflexivity.
Qed.

Lemma split_loop_pairs (s : string) (tail : string) pairs : forall pre n strs prev,
  s = pre ++ render_sections pairs tail -> n = String.length pre ->
  all_ascii s = true -> Ascii.eqb prev "#" = false ->
  Forall (fun '(t, e) => good_text t && good_expr e = true) pairs ->
  good_text tail = true ->
  split_loop s (render_sections pairs tail) false n n prev strs
  = Some ((strs ++ flat_map (fun '(t, e) => [SecStr t; SecExpr e]) pairs)%list,
          false, n + String.length (render_sections pairs ""),
          n + String.length (render_sections pairs tail)).
Proof.
  induction pairs as [|[t e] pairs IH]; intros pre n strs prev Hs Hn Ha Hp Hg Ht.
  - cbn [render_sections flat_map]. rewrite app_nil_r.
    unfold good_text in Ht. apply andb_true_iff in Ht as [Hta Htm].
    rewrite <- (string_app_nil_r tail) at 1.
    rewrite split_loop_text; [|exact Hta|rewrite no_marker_from_prev; auto].
    cbn. f_equal. f_equal. f_equal. lia.
  - inversion Hg as [|? ? Hte Hg']; subst.
    apply andb_true_iff in Hte as [Ht' He'].
    unfold good_text in Ht'. apply andb_true_iff in Ht' as [Hta Htm].
    unfold good_expr in He'. apply andb_true_iff in He' as [He' Hec].
    apply andb_true_iff in He' as [Hea Hem].
    set (R := render_sections pairs tail).
    cbn [render_sections]. fold R.
    rewrite split_loop_text; [|exact Hta|rewrite no_marker_from_prev; auto].
    change ("#{" ++ ?X) with (String "#" (String "{" X)).
    cbn [split_loop].
    replace (is_continuation "#") with false by reflexivity.
    replace (is_continuation "{") with false by reflexivity.
    cbn [Ascii.eqb Bool.eqb andb].
    replace (S (String.length pre + String.length t) - 1)
      with (String.length pre + String.length t) by lia.
    change (String "#" (String "{" ?X)) with ("#{" ++ X).
    cbn [render_sections] in Ha. fold R in Ha.
    rewrite slice_range_mid by exact Ha.
    rewrite split_loop_expr; [|exact Hea|rewrite no_marker_from_prev; auto|exact Hec].
    change ("}" ++ ?X) with (String "}" X).
    cbn [split_loop].
    replace (is_continuation "}") with false by reflexivity.
    cbn [Ascii.eqb Bool.eqb andb].
    change (String "}" ?X) with ("}" ++ X).
    assert (Hs2 : pre ++ t ++ "#{" ++ e ++ "}" ++ R
                  = (pre ++ t ++ "#{") ++ e ++ ("}" ++ R)).
    { rewrite !string_app_assoc. reflexivity. }
    assert (Hl : String.length (pre ++ t ++ "#{")
                 = S (S (String.length pre + String.length t))).
    { rewrite !string_length_app. cbn. lia. }
    assert (Hsl : slice_range (pre ++ t ++ "#{" ++ e ++ "}" ++ R)
                    (S (S (String.length pre + String.length t)))
                    (S (S (String.length pre + String.length t)) + String.length e)
                  = Some e).
    { rewrite Hs2 in Ha |- *. rewrite <- Hl. apply slice_range_mid, Ha. }
    rewrite Hsl.
    rewrite (IH (pre ++ t ++ "#{" ++ e ++ "}")); cycle 1.
    { rewrite !string_app_assoc. reflexivity. }
    { rewrite !string_length_app. cbn. lia. }
    { exact Ha. }
    { reflexivity. }
    { exact Hg'. }
    { exact Ht. }
    rewrite <- !app_assoc. cbn [app].
    f_equal. f_equal. f_equal.
    + rewrite !string_length_app. cbn. lia.
    + fold R. rewrite !string_length_app. cbn. lia.
Qed.

Lemma render_sections_tail pairs tail :
  render_sections pairs tail = render_sections pairs "" ++ tail.
Proof.
  induction pairs as [|[t e] pairs IH]; cbn [render_sections].
  - rewrite string_app_nil. reflexivity.
  - rewrite IH, !string_app_assoc. reflexivity.
Qed.

Lemma all_ascii_render pairs tail :
  Forall (fun '(t, e) => good_text t && good_expr e = true) pairs ->
  all_ascii tail = true -> all_ascii (render_sections pairs tail) = true.
Proof.
  intros Hp Ht. induction Hp as [|[t e] pairs Hte Hp IH]; cbn [render_sections]; [exact Ht|].
  unfold good_text, good_expr in Hte.
  rewrite !all_ascii_app, IH.
  apply andb_true_iff in Hte as [H1 H2].
  apply andb_true_iff in H1 as [-> _].
  apply andb_true_iff in H2 as [H2 _].
  apply andb_true_iff in H2 as [-> _]. reflexivity.
Qed.

(** X23: For ASCII text t1#{e1}t2#{e2}...tail, split_str returns the
    sections Str t1, Expr e1, Str t2, Expr e2, ... in order, then Str tail
    if tail is not empty. No text may contain '#{', and no expression may
    contain '#{' or '}'. *)
Theorem split_str_ascii pairs tail
  (Hp : Forall (fun '(t, e) => good_text t && good_expr e = true) pairs)
  (Ht : good_text tail = true) :
  split_str (render_sections pairs tail) = Some (inr (expected_sections pairs tail)).
Proof.
  assert (Ha : all_ascii (render_sections pairs tail) = true).
  { apply all_ascii_render; [exact Hp|]. unfold good_text in Ht.
    apply andb_true_iff in Ht as [-> _]. reflexivity. }
  unfold split_str.
  rewrite (split_loop_pairs (render_sections pairs tail) tail pairs "" 0 [] "000"%char);
    try reflexivity; try assumption.
  cbn [Nat.add app]. unfold expected_sections.
  rewrite (render_sections_tail pairs tail) in Ha |- *. rewrite string_length_app.
  destruct (String.eqb_spec tail "") as [->|Hne].
  - rewrite Nat.add_0_r, Nat.eqb_refl. cbn. rewrite app_nil_r. reflexivity.
  - replace (negb _) with true.
    2:{ symmetry. apply negb_true_iff, Nat.eqb_neq. destruct tail; [congruence|cbn; lia]. }
    rewrite <- (string_app_nil_r tail) in Ha.
    pose proof (slice_range_mid _ _ _ Ha) as Hs.
    rewrite string_app_nil_r in Hs. rewrite Hs. reflexivity.
Qed.

Lemma split_loop_prefix (s rest : string) pairs : forall pre n strs prev,
  s = pre ++ render_sections pairs rest -> n = String.length pre ->
  all_ascii s = true -> Ascii.eqb prev "#" = false ->
  Forall (fun '(t, e) => good_text t && good_expr e = true) pairs ->
  split_loop s (render_sections pairs rest) false n n prev strs
  = split_loop s rest false (n + String.length (render_sections pairs ""))
      (n + String.length (render_sections pairs ""))
      (match pairs with [] => prev | _ => "}"%char end)
      ((strs ++ flat_map (fun '(t, e) => [SecStr t; SecExpr e]) pairs)%list).
Proof.
  induction pairs as [|[t e] pairs IH]; intros pre n strs prev Hs Hn Ha Hp Hg.
  - cbn [render_sections flat_map String.length]. rewrite app_nil_r, Nat.add_0_r.
    reflexivity.
  - inversion Hg as [|? ? Hte Hg']; subst.
    apply andb_true_iff in Hte as [Ht' He'].
    unfold good_text in Ht'. apply andb_true_iff in Ht' as [Hta Htm].
    unfold good_expr in He'. apply andb_true_iff in He' as [He' Hec].
    apply andb_true_iff in He' as [Hea Hem].
    set (R := render_sections pairs rest).
    cbn [render_sections]. fold R.
    rewrite split_loop_text; [|exact Hta|rewrite no_marker_from_prev; auto].
    change ("#{" ++ ?X) with (String "#" (String "{" X)).
    cbn [split_loop].
    replace (is_continuation "#") with false by reflexivity.
    replace (is_continuation "{") with false by reflexivity.
    cbn [Ascii.eqb Bool.eqb andb].
    replace (S (String.length pre + String.length t) - 1)
      with (String.length pre + String.length t) by lia.
    change (String "#" (String "{" ?X)) with ("#{" ++ X).
    cbn [render_sections] in Ha. fold R in Ha.
    rewrite slice_range_mid by exact Ha.
    rewrite split_loop_expr; [|exact Hea|rewrite no_marker_from_prev; auto|exact Hec].
    change ("}" ++ ?X) with (String "}" X).
    cbn [split_loop].
    replace (is_continuation "}") with false by reflexivity.
    cbn [Ascii.eqb Bool.eqb andb].
    change (String "}" ?X) with ("}" ++ X).
    assert (Hs2 : pre ++ t ++ "#{" ++ e ++ "}" ++ R
                  = (pre ++ t ++ "#{") ++ e ++ ("}" ++ R)).
    { rewrite !string_app_assoc. reflexivity. }
    assert (Hl : String.length (pre ++ t ++ "#{")
                 = S (S (String.length pre + String.length t))).
    { rewrite !string_length_app. cbn. lia. }
    assert (Hsl : slice_range (pre ++ t ++ "#{" ++ e ++ "}" ++ R)
                    (S (S (String.length pre + String.length t)))
                    (S (S (String.length pre + String.length t)) + String.length e)
                  = Some e).
    { rewrite Hs2 in Ha |- *. rewrite <- Hl. apply slice_range_mid, Ha. }
    rewrite Hsl.
    rewrite (IH (pre ++ t ++ "#{" ++ e ++ "}")); cycle 1.
    { rewrite !string_app_assoc. reflexivity. }
    { rewrite !string_length_app. cbn. lia. }
    { exact Ha. }
    { reflexivity. }
    { exact Hg'. }
    rewrite <- !app_assoc. cbn [app].
    replace (S (S (S (String.length pre + String.length t)) + String.length e)
             + String.length (render_sections pairs ""))
      with (String.length pre
            + String.length (t ++ "#{" ++ e ++ "}" ++ render_sections pairs ""))
      by (rewrite !string_length_app; cbn; lia).
    destruct pairs; reflexivity.
Qed.

Lemma slice_range_ascii (s : string) (a b : nat) :
  all_ascii s = true -> a <= b -> b <= String.length s ->
  slice_range s a b = Some (String.substring a (b - a) s).
Proof.
  intros Ha Hab Hb. unfold slice_range.
  rewrite !ascii_char_boundary by (exact Ha || lia).
  replace (Nat.leb a b) with true by (symmetry; apply Nat.leb_le; lia).
  reflexivity.
Qed.

(** X24: Such ASCII text that ends in an open '#{expr' with no closing brace
    makes split_str return the error 'Unclosed expression while
    interpolating string.'. *)
Theorem split_str_unclosed pairs t e
  (Hp : Forall (fun '(t, e) => good_text t && good_expr e = true) pairs)
  (Ht : good_text t = true) (He : good_expr e = true) :
  split_str (render_sections pairs (t ++ "#{" ++ e))
  = Some (inl "Unclosed expression while interpolating string.").
Proof.
  set (s := render_sections pairs (t ++ "#{" ++ e)).
  unfold good_text in Ht. apply andb_true_iff in Ht as [Hta Htm].
  unfold good_expr in He. apply andb_true_iff in He as [He Hec].
  apply andb_true_iff in He as [Hea Hem].
  assert (Ha : all_ascii s = true).
  { unfold s. apply all_ascii_render; [exact Hp|].
    rewrite !all_ascii_app, Hta, Hea. reflexivity. }
  unfold split_str. unfold s at 2.
  rewrite (split_loop_prefix s (t ++ "#{" ++ e) pairs "" 0 [] "000"%char);
    try reflexivity; try assumption.
  cbn [Nat.add app].
  rewrite split_loop_text; [|exact Hta|].
  2:{ rewrite no_marker_from_prev; [exact Htm|]. destruct pairs; reflexivity. }
  change ("#{" ++ ?X) with (String "#" (String "{" X)).
  cbn [split_loop].
  replace (is_continuation "#") with false by reflexivity.
  replace (is_continuation "{") with false by reflexivity.
  cbn [Ascii.eqb Bool.eqb andb].
  set (k := String.length (render_sections pairs "")).
  assert (Hlen : String.length s = k + String.length t + 2 + String.length e).
  { unfold s, k. rewrite render_sections_tail, !string_length_app. cbn. lia. }
  rewrite slice_range_ascii by (exact Ha || lia).
  rewrite <- (string_app_nil_r e).
  rewrite split_loop_expr; [|exact Hea|rewrite no_marker_from_prev; auto|exact Hec].
  cbn [split_loop].
  destruct (negb _); [|reflexivity].
  rewrite slice_range_ascii by (exact Ha || lia). reflexivity.
Qed.

(** Witnesses *)

Lemma eval_keeps_outer_scopes_witness :
  host_keeps_frame sample_host /\
  keeps_frame (initial_env sample_host)
    (eval sample_host 20 (SList [Id "define"; Id "y"; SNum 1]) (initial_env sample_host)).
Proof.
  assert (Hh : host_keeps_frame sample_host).
  { intros g env args. cbn. repeat split. }
  split; [exact Hh|].
  apply (eval_keeps_outer_scopes sample_host Hh 20).
Defined.

Lemma define_function_sugar_witness :
  get (initial_env sample_host) "define" = Some (Macro M_define) /\
  get (initial_env sample_host) "lambda" = Some (Macro M_lambda) /\
  stack (initial_env sample_host) <> [] /\
  ("sq" ∉ RESERVED_WORDS) /\
  exists env',
    eval sample_host 4
      (SList [Id "define"; SList [Id "sq"; Id "x"]; SList [Id "*"; Id "x"; Id "x"]])
      (initial_env sample_host)
    = Ret env' (Ok empty) /\
    define "sq" (Func ["x"] (SList [Id "*"; Id "x"; Id "x"]) false)
      (initial_env sample_host) = Some env'.
Proof.
  assert (Hd : get (initial_env sample_host) "define" = Some (Macro M_define))
    by reflexivity.
  assert (Hl : get (initial_env sample_host) "lambda" = Some (Macro M_lambda))
    by reflexivity.
  assert (Hs : stack (initial_env sample_host) <> []) by (vm_compute; discriminate).
  assert (Hr : "sq" ∉ RESERVED_WORDS)
    by exact (bool_decide_unpack ("sq" ∉ RESERVED_WORDS) I).
  split; [exact Hd|split; [exact Hl|split; [exact Hs|split; [exact Hr|]]]].
  exact (define_function_sugar sample_host 0 (initial_env sample_host) "sq" ["x"]
           (SList [Id "*"; Id "x"; Id "x"]) [] Hd Hl Hs Hr).
Defined.

Lemma cond_fallthrough_and_else_witness :
  get (initial_env sample_host) "cond" = Some (Macro M_cond) /\
  eval sample_host 2
    (SList (Id "cond" :: map (fun a => SList [SBool false; a]) [SNum 1]
              ++ [SList [Id "else"; Id "else"]])) (initial_env sample_host)
  = eval sample_host 1 (Id "else") (initial_env sample_host).
Proof.
  assert (Hc : get (initial_env sample_host) "cond" = Some (Macro M_cond))
    by reflexivity.
  split; [exact Hc|].
  exact (proj2 (cond_fallthrough_and_else sample_host 0 (initial_env sample_host)
                  [SNum 1] (Id "else") Hc)).
Defined.

Lemma eval_of_quote_witness :
  get (initial_env sample_host) "eval" = Some (Intrinsic I_eval) /\
  plain_data (SList [Id "+"; SNum 1; SNum 2]) = true /\
  eval sample_host 4 (SList [Id "eval"; SQuote (SList [Id "+"; SNum 1; SNum 2])])
    (initial_env sample_host)
  = eval sample_host 2 (SList [Id "+"; SNum 1; SNum 2]) (initial_env sample_host).
Proof.
  split; [reflexivity|split; [reflexivity|]].
  apply (eval_of_quote sample_host 2); reflexivity.
Defined.

Lemma lambda_closure_witness :
  call_macro (eval sample_host 5) M_lambda default_env
    [Id "lambda"; SList [Id "x"; SIdent "rest" true]; Id "x"]
  = Ret default_env (Ok (Func ["x"; "rest"] (Id "x") true)) /\
  default_env = default_env /\ Id "x" = Id "x" /\
  map ident_name [Id "x"; SIdent "rest" true] = map Some ["x"; "rest"] /\
  (forall j s, [Id "x"; SIdent "rest" true] !! j = Some (SIdent s true) ->
               S j = length [Id "x"; SIdent "rest" true]) /\
  (true = true -> ["x"; "rest"] <> []).
Proof.
  assert (Hl : call_macro (eval sample_host 5) M_lambda default_env
                 [Id "lambda"; SList [Id "x"; SIdent "rest" true]; Id "x"]
               = Ret default_env (Ok (Func ["x"; "rest"] (Id "x") true)))
    by reflexivity.
  split; [exact Hl|].
  exact (lambda_closure _ _ _ _ _ _ _ _ _ Hl).
Defined.

Lemma super_marker_lookup_witness :
  utf8_lead_ok "car" = true /\
  eval sample_host 1 (SIdent ("a" ++ SUPER ++ "car") false) (initial_env sample_host)
  = match get_super (initial_env sample_host) ":car" with
    | Some val => Ret (initial_env sample_host) (Ok val)
    | None => Ret (initial_env sample_host) (Err (Unbound ":car"))
    end.
Proof.
  assert (Hx : utf8_lead_ok "car" = true) by reflexivity.
  split; [exact Hx|].
  destruct (super_marker_lookup sample_host 0 (initial_env sample_host) "a" "car"
              false Hx) as [_ Hp].
  exact (proj2 (Hp ltac:(discriminate) eq_refl)).
Defined.

Lemma split_str_counts_chars_witness :
  no_open_brace (String "h" (String "195" (String "169" "llo"))) = true /\
  split_str (String "h" (String "195" (String "169" "llo")))
  = Some (inr [SecStr (String "h" (String "195" (String "169" "ll")))]).
Proof.
  split; [reflexivity|].
  rewrite split_str_counts_chars by reflexivity. reflexivity.
Defined.

Lemma split_str_ascii_witness :
  Forall (fun '(t, e) => good_text t && good_expr e = true) [("x = ", "x"); (", y", "(+ y 1)")] /\
  good_text "!" = true /\
  split_str "x = #{x}, y#{(+ y 1)}!"
  = Some (inr [SecStr "x = "; SecExpr "x"; SecStr ", y"; SecExpr "(+ y 1)"; SecStr "!"]).
Proof.
  assert (Hp : Forall (fun '(t, e) => good_text t && good_expr e = true)
                 [("x = ", "x"); (", y", "(+ y 1)")])
    by (repeat constructor).
  split; [exact Hp|split; [reflexivity|]].
  exact (split_str_ascii _ "!" Hp eq_refl).
Defined.

Lemma split_str_unclosed_witness :
  Forall (fun '(t, e) => good_text t && good_expr e = true) [("a", "b")] /\
  good_text "c" = true /\ good_expr "d" = true /\
  split_str "a#{b}c#{d" = Some (inl "Unclosed expression while interpolating string.").
Proof.
  assert (Hp : Forall (fun '(t, e) => good_text t && good_expr e = true) [("a", "b")])
    by (repeat constructor).
  split; [exact Hp|split; [reflexivity|split; [reflexivity|]]].
  exact (split_str_unclosed _ "c" "d" Hp eq_refl eq_refl).
Defined.

(* ================================================================== *)
(** * Evaluation without stops *)

(** In an environment whose reachable bindings are all safe, a safe
    expression evaluates to a safe result, in an environment that is
    still safe and no shallower, or halts through [exit], or runs out of
    fuel: it never reaches a [Panic].  The induction runs over the fuel,
    through [eval_step], [call_macro], [eval_func] and [call_intrinsic]. *)

Section Safety.
Variable U : string -> bool.











Lemma or_panic_safe d o k :
  (exists env, o = Some env /\ safe_at U d (k env)) -> safe_at U d (or_panic o k).
Proof. intros (env & -> & H). exact H. Qed.
















Variable ev : evaluator.
Hypothesis Hev : forall e env, safe_expr U e = true -> safe_env U env ->
  safe_at U (depth env) (ev e env).





















Variable H : host.
Variable call : intrinsic -> environment -> list value -> outcome.
Hypothesis Hcall : forall g env args,
  safe_intrinsic g = true -> forallb (safe_value U) args = true ->
  safe_env U env -> safe_at U (depth env) (call g env args).



End Safety.


(* ------------------------------------------------------------------ *)
(** ** Where evaluation stops the process *)



